(** * The image-usage gatherer: correlation of rendered images with network
      transfers, and re-measurement of natural sizes.

    The development embeds the two revisions of the gatherer that the
    repository holds:

    - [ByTag]: [lighthouse-core/gather/gatherers/image-usage.js]
      ([collectImageTagInfo], [pick], [fetchTagWithSizeInformation], and an
      [afterPass] that awaits all the tags with [Promise.all]);
    - [ByElement]: the later revision ([collectImageElementInfo],
      [fetchElementWithSizeInformation], and an [afterPass] that chains the
      elements one after the other with [reduce]).

    JavaScript objects are finite maps from property names to values; the
    array of element objects that comes back from the page is a store
    indexed by position, so that an object keeps its identity when
    [Object.assign] updates it in place.  Promises are modelled by how they
    settle. *)

From Stdlib Require Import ssreflect ZArith String Ascii List.
From stdpp Require Import base option list gmap fin_maps strings pretty.

Open Scope string_scope.
Open Scope nat_scope.
Open Scope list_scope.

(** ** JavaScript values *)

(** Numbers are carried around by the gatherer and never computed with; they
    are modelled as integers (pixel sizes, byte counts, time stamps). *)
#[warnings="-register-all"]
Inductive val : Type :=
| VUndef
| VNull
| VBool (b : bool)
| VNum (n : Z)
| VStr (s : string)
| VArr (l : list val)
| VObj (o : gmap string val).

(** An object: its own enumerable properties. *)
Abbreviation obj := (gmap string val).

(** [o[k]]: a missing property reads as [undefined]. *)
Definition get (o : obj) (k : string) : val := default VUndef (o !! k).

(** Conversion to boolean, as done by [!x], [x && y] and [c ? a : b]. *)
Definition truthy (v : val) : bool :=
  match v with
  | VUndef | VNull => false
  | VBool b => b
  | VNum n => negb (n =? 0)%Z
  | VStr s => negb (String.eqb s "")
  | VArr _ | VObj _ => true
  end.

(** [a && b] yields [a] when it is falsy and [b] otherwise. *)
Definition js_and (a b : val) : val := if truthy a then b else a.

(** Conversion to string, as done on a property key, on the argument of
    [RegExp.prototype.test] and on the text given to [JSON.parse]. *)
Fixpoint ToString (v : val) : string :=
  match v with
  | VUndef => "undefined"
  | VNull => "null"
  | VBool b => if b then "true" else "false"
  | VNum n => pretty n
  | VStr s => s
  | VArr l =>
      String.concat ","
        (List.map (fun x => match x with
                            | VUndef | VNull => ""
                            | _ => ToString x
                            end) l)
  | VObj _ => "[object Object]"
  end.

(** [Object.assign(target, source)]: the properties of [source] are written
    over those of [target]. *)
Definition assign_props (target source : obj) : obj := source ∪ target.

(** ** Strings

    A string is a sequence of code units; the embedding covers the code
    units below 256. *)

(** [s.split(c)] for a separator [c] of one code unit. *)
Fixpoint split (sep : ascii) (s : string) : list string :=
  match s with
  | EmptyString => [EmptyString]
  | String c s' =>
      if Ascii.eqb c sep then EmptyString :: split sep s'
      else match split sep s' with
           | [] => [String c EmptyString]
           | w :: ws => String c w :: ws
           end
  end.

(** White space and line terminators, as stripped by [trim]. *)
Definition isWhiteSpace (c : ascii) : bool :=
  let n := nat_of_ascii c in
  ((9 <=? n)%nat && (n <=? 13)%nat) || (n =? 32)%nat || (n =? 160)%nat.

Fixpoint trimStart (s : string) : string :=
  match s with
  | EmptyString => EmptyString
  | String c s' => if isWhiteSpace c then trimStart s' else s
  end.

Fixpoint trimEnd (s : string) : string :=
  match s with
  | EmptyString => EmptyString
  | String c s' =>
      match trimEnd s' with
      | EmptyString => if isWhiteSpace c then EmptyString else String c EmptyString
      | t => String c t
      end
  end.

Definition trim (s : string) : string := trimEnd (trimStart s).

(** The number of occurrences of a code unit. *)
Fixpoint occurrences (c : ascii) (s : string) : nat :=
  match s with
  | EmptyString => 0%nat
  | String d s' => ((if Ascii.eqb d c then 1 else 0) + occurrences c s')%nat
  end.

(** ** Promises *)

(** What a script throws or a promise rejects with. *)
Inductive error : Type :=
| SyntaxError
| TypeError
| ImageError (event : val).

(** How a promise ends up: fulfilled with a value, rejected, or never
    settled. *)
Inductive settled (A : Type) : Type :=
| Fulfilled (a : A)
| Rejected (e : error)
| Pending.
Arguments Fulfilled {A} a.
Arguments Rejected {A} e.
Arguments Pending {A}.

Definition is_fulfilled {A} (p : settled A) : bool :=
  match p with Fulfilled _ => true | _ => false end.

(** ** The page: elements of the document *)

(** The properties of an [img] or [source] element that the page script
    reads.  [tagName] and [srcset] are strings on both kinds of element; the
    other properties are [undefined] on the kind that lacks them. *)
Record Element : Type := mkElement {
  tagName : string;
  currentSrc : val;
  srcset : string;
  sizes : val;
  media : val;
  clientWidth : val;
  clientHeight : val;
  naturalWidth : val;
  naturalHeight : val
}.

Record ParentElement : Type := mkParent {
  parentTagName : string;
  children : list Element
}.

(** One entry of [document.querySelectorAll('img')]. *)
Record ImgNode : Type := mkImg {
  img : Element;
  parentElement : option ParentElement
}.

(** [entries.map(entry => entry.trim().split(' ')[0])] over
    [srcset.split(',')]. *)
Definition relativeUrls (srcset : string) : list string :=
  List.map (fun entry => hd "" (split " " (trim entry))) (split "," srcset).

Section Page.

(** [window.matchMedia(query).matches]. *)
Variable matchMedia : string -> bool.

(** [JSON.stringify]. *)
Variable JSON_stringify : val -> string.

(** [!element.media || window.matchMedia(element.media).matches] *)
Definition mediaMatches (element : Element) : bool :=
  negb (truthy (media element)) || matchMedia (ToString (media element)).

Definition isSource (element : Element) : bool :=
  String.eqb (tagName element) "SOURCE".

(** The object literal built by [toObject] and by [getElementInfo], given
    the list of candidate URLs. *)
Definition elementInfo (srcsetUrls : list string) (element : Element) : obj :=
  list_to_map [
    ("tagName", VStr (tagName element));
    ("src", currentSrc element);
    ("srcset", VStr (srcset element));
    ("srcsetUrls", VArr (VStr <$> srcsetUrls));
    ("sizes", sizes element);
    ("media", media element);
    ("clientWidth", clientWidth element);
    ("clientHeight", clientHeight element);
    ("naturalWidth", naturalWidth element);
    ("naturalHeight", naturalHeight element)
  ].

(** The [sources] array of a [picture]: the children that are [source]
    elements and whose media applies, then the image itself. *)
Definition pictureSources (info : Element -> obj) (parent : ParentElement)
    (imgInfo : obj) : list obj :=
  List.map info
    (List.filter mediaMatches (List.filter isSource (children parent)))
  ++ [imgInfo].

(** The callback mapped over the images of the document.  Reading
    [parentElement.tagName] throws when there is no parent. *)
Definition describeImage (info : Element -> obj) (node : ImgNode) : error + obj :=
  match parentElement node with
  | None => inl TypeError
  | Some parent =>
      let imgInfo := info (img node) in
      if negb (String.eqb (parentTagName parent) "PICTURE") then
        inr (assign_props imgInfo {[ "isPicture" := VBool false ]})
      else
        let sources := pictureSources info parent imgInfo in
        inr (assign_props imgInfo
               (list_to_map [
                  ("isPicture", VBool true);
                  ("sources", VStr (JSON_stringify (VArr (VObj <$> sources))))
                ]))
  end.

(** [array.map(f)] for a callback that can throw. *)
Fixpoint mapThrowing {A B} (f : A -> error + B) (l : list A) : error + list B :=
  match l with
  | [] => inr []
  | x :: l' =>
      match f x with
      | inl e => inl e
      | inr y =>
          match mapThrowing f l' with
          | inl e => inl e
          | inr ys => inr (y :: ys)
          end
      end
  end.

End Page.

(** ** The gatherer: element objects, and promises for them *)

(** What happens to a fresh [Image] once its [src] is set: it loads with a
    natural size, fails with an error event, or fires neither event. *)
Inductive image_event : Type :=
| ImgLoad (width height : Z)
| ImgError (event : val)
| ImgNoEvent.

(** The element objects received from the page, each identified by its
    position in the array, and the elements whose natural size was
    requested from the page, oldest first. *)
Record state : Type := mkState {
  store : list obj;
  requested : list nat
}.

(** A promise for an element: [Promise.resolve(element)], or a promise of a
    size followed by [.then(size => Object.assign(element, size))]. *)
Inductive promise : Type :=
| PromiseResolve (element : nat)
| ThenAssign (size : settled obj) (element : nat).

(** [Object.assign(element, size)] on an element of the store; it returns the
    element that it was given. *)
Definition Object_assign (objects : list obj) (element : nat) (size : obj)
    : list obj * nat :=
  (alter (fun o => assign_props o size) element objects, element).

(** The settlement of a promise for an element, with the effect of its
    reaction on the store. *)
Definition await (p : promise) (objects : list obj) : list obj * settled nat :=
  match p with
  | PromiseResolve element => (objects, Fulfilled element)
  | ThenAssign (Fulfilled size) element =>
      let '(objects', element') := Object_assign objects element size in
      (objects', Fulfilled element')
  | ThenAssign (Rejected e) _ => (objects, Rejected e)
  | ThenAssign Pending _ => (objects, Pending)
  end.

(** [/^image/.test(record._mimeType)] *)
Definition isImage (record : obj) : bool :=
  String.prefix "image" (ToString (get record "_mimeType")).

(** [indexedNetworkRecords[key]].  The keys in use are the URLs of transfers
    and the sources of elements, none of which is the name of a property
    that a plain object inherits.  The record is shared by the elements with
    that source and is never updated, so that it is held by value. *)
Definition indexed (index : gmap string obj) (key : val) : val :=
  match index !! ToString key with
  | Some record => VObj record
  | None => VUndef
  end.

Section Driver.

(** [new Image()] in the page, with [src] set to the given URL: what happens
    to it depends on the URL only. *)
Variable Image : string -> image_event.

(** [JSON.parse]: [None] when it throws. *)
Variable JSON_parse : string -> option val.

(** The script run in the page for one URL.  The driver hands its
    settlement over unchanged. *)
Definition determineNaturalSize (url : string) : settled obj :=
  match Image url with
  | ImgLoad w h =>
      Fulfilled (list_to_map [("naturalWidth", VNum w); ("naturalHeight", VNum h)])
  | ImgError event => Rejected (ImageError event)
  | ImgNoEvent => Pending
  end.

(** [fetchTagWithSizeInformation] and [fetchElementWithSizeInformation]: the
    same function under two names.  The request leaves at once; the size is
    assigned when the promise settles. *)
Definition fetchElementWithSizeInformation (st : state) (element : nat)
    : state * (error + promise) :=
  match store st !! element with
  | None => (st, inl TypeError)
  | Some o =>
      let url := ToString (get o "src") in
      (mkState (store st) (requested st ++ [element]),
       inr (ThenAssign (determineNaturalSize url) element))
  end.

(** [element.sources = element.sources && JSON.parse(element.sources)] *)
Definition rehydrate (o : obj) : error + obj :=
  let sources := get o "sources" in
  if truthy sources then
    match JSON_parse (ToString sources) with
    | Some parsed => inr (<["sources" := parsed]> o)
    | None => inl SyntaxError
    end
  else inr (<["sources" := sources]> o).

(** [element.networkRecord = indexedNetworkRecords[element.src]] *)
Definition link (index : gmap string obj) (o : obj) : obj :=
  <["networkRecord" := indexed index (get o "src")]> o.

(** [element.isPicture && element.networkRecord], as a condition. *)
Definition needsSize (o : obj) : bool :=
  truthy (js_and (get o "isPicture") (get o "networkRecord")).

(** The body of the callback run on each element, up to the promise for the
    element: the same in both revisions. *)
Definition visit (index : gmap string obj) (st : state) (element : nat)
    : state * (error + promise) :=
  match store st !! element with
  | None => (st, inl TypeError)
  | Some o =>
      match rehydrate o with
      | inl e => (st, inl e)
      | inr o1 =>
          let o2 := link index o1 in
          let st2 := mkState (<[element := o2]> (store st)) (requested st) in
          if needsSize o2 then fetchElementWithSizeInformation st2 element
          else (st2, inr (PromiseResolve element))
      end
  end.

(** *** [Promise.all]

    The promises settle in some order, given as a list of positions.  A
    fulfilled promise stores its value at its position; the first rejection
    rejects the whole; the whole is fulfilled once every position holds a
    value. *)
Record gathering : Type := mkGathering {
  objects : list obj;
  values : list (option nat);
  rejection : option error
}.

Definition settle (promises : list promise) (g : gathering) (i : nat) : gathering :=
  match promises !! i with
  | None => g
  | Some p =>
      match await p (objects g) with
      | (objects', Fulfilled element) =>
          mkGathering objects' (<[i := Some element]> (values g)) (rejection g)
      | (objects', Rejected e) =>
          mkGathering objects' (values g)
            (match rejection g with Some e0 => Some e0 | None => Some e end)
      | (_, Pending) => g
      end
  end.

Definition Promise_all (promises : list promise) (schedule : list nat)
    (objs : list obj) : list obj * settled (list nat) :=
  let g := foldl (settle promises)
             (mkGathering objs (replicate (length promises) None) None)
             schedule in
  (objects g,
   match rejection g with
   | Some e => Rejected e
   | None =>
       match mapM id (values g) with
       | Some elements => Fulfilled elements
       | None => Pending
       end
   end).

End Driver.

(** ** The first revision: [Promise.all] over the tags *)

Module ByTag.

Section Page.

(** The URL parser of the page, against the location of the document:
    [None] when the string does not parse. *)
Variable resolveURL : string -> option string.
Variable matchMedia : string -> bool.
Variable JSON_stringify : val -> string.

(** [a.href = url; return a.href]: the getter of an anchor yields the
    serialised URL, and the attribute as it was set when it does not parse. *)
Definition anchor_href (url : string) : string :=
  match resolveURL url with
  | Some href => href
  | None => url
  end.

Definition parseSrcsetUrls (srcset : string) : list string :=
  if String.eqb srcset "" then []
  else List.map anchor_href (relativeUrls srcset).

Definition toObject (tag : Element) : obj :=
  elementInfo (parseSrcsetUrls (srcset tag)) tag.

Definition collectImageTagInfo (document : list ImgNode) : error + list obj :=
  mapThrowing (describeImage matchMedia JSON_stringify toObject) document.

End Page.

(** [for (const key of keys) { out[key] = obj[key]; }], for keys that are
    not names that an object inherits from [Object.prototype], as the five
    keys of [afterPass] are. *)
Definition pick (o : obj) (keys : list string) : obj :=
  foldl (fun out key => <[key := get o key]> out) ∅ keys.

Definition pickedKeys : list string :=
  ["url"; "requestHeaders"; "resourceSize"; "startTime"; "endTime"].

(** The reducer of [traceData.networkRecords.reduce(..., {})]. *)
Definition indexRecord (map : gmap string obj) (record : obj) : gmap string obj :=
  if isImage record then
    <[ToString (get record "_url") := pick record pickedKeys]> map
  else map.

Definition indexedNetworkRecords (networkRecords : list obj) : gmap string obj :=
  foldl indexRecord ∅ networkRecords.

Section Gatherer.
Variable Image : string -> image_event.
Variable JSON_parse : string -> option val.

Definition fetchTagWithSizeInformation : state -> nat -> state * (error + promise) :=
  fetchElementWithSizeInformation Image.

(** [tags.map(tag => ...)]: the callback runs on every tag in turn, before any
    of the promises settles; when it throws, the promises made so far remain. *)
Fixpoint mapTags (index : gmap string obj) (tags : list nat) (st : state)
    : state * list promise * option error :=
  match tags with
  | [] => (st, [], None)
  | tag :: rest =>
      match visit Image JSON_parse index st tag with
      | (st1, inl e) => (st1, [], Some e)
      | (st1, inr p) =>
          let '(st2, promises, thrown) := mapTags index rest st1 in
          (st2, p :: promises, thrown)
      end
  end.

(** [afterPass], from the snapshot that the page returns.  [schedule] is the
    order in which the promises given to [Promise.all] settle. *)
Definition afterPass (networkRecords : list obj) (snapshot : settled (list obj))
    (schedule : list nat) : state * settled (list nat) :=
  let index := indexedNetworkRecords networkRecords in
  match snapshot with
  | Fulfilled tags =>
      let '(st, promises, thrown) :=
        mapTags index (seq 0 (length tags)) (mkState tags []) in
      let '(objects', all) := Promise_all promises schedule (store st) in
      (mkState objects' (requested st),
       match thrown with
       | Some e => Rejected e
       | None => all
       end)
  | Rejected e => (mkState [] [], Rejected e)
  | Pending => (mkState [] [], Pending)
  end.

End Gatherer.
End ByTag.

(** ** The later revision: the elements one after the other *)

Module ByElement.

Section Page.
Variable resolveURL : string -> option string.
Variable matchMedia : string -> bool.
Variable JSON_stringify : val -> string.

(** [try { return new URL(url, window.location.href).href; }
     catch (e) { return url; }] *)
Definition parseSrcsetUrls (srcset : string) : list string :=
  if String.eqb srcset "" then []
  else List.map (fun url => match resolveURL url with
                            | Some href => href
                            | None => url
                            end) (relativeUrls srcset).

Definition getElementInfo (element : Element) : obj :=
  elementInfo (parseSrcsetUrls (srcset element)) element.

Definition collectImageElementInfo (document : list ImgNode) : error + list obj :=
  mapThrowing (describeImage matchMedia JSON_stringify getElementInfo) document.

End Page.

(** The object literal stored for an image record. *)
Definition networkRecordOf (record : obj) : obj :=
  list_to_map [
    ("url", get record "url");
    ("resourceSize", get record "resourceSize");
    ("startTime", get record "startTime");
    ("endTime", get record "endTime");
    ("responseReceivedTime", get record "responseReceivedTime")
  ].

Definition indexRecord (map : gmap string obj) (record : obj) : gmap string obj :=
  if isImage record then
    <[ToString (get record "_url") := networkRecordOf record]> map
  else map.

Definition indexedNetworkRecords (networkRecords : list obj) : gmap string obj :=
  foldl indexRecord ∅ networkRecords.

Section Gatherer.
Variable Image : string -> image_event.
Variable JSON_parse : string -> option val.

(** [elements.reduce((promise, element) => promise.then(collector => ...),
    Promise.resolve([]))]: the callback of an element runs once the promise
    of the element before it is fulfilled, and pushes the element on the
    collector once its own promise is. *)
Fixpoint reduceElements (index : gmap string obj) (elements : list nat)
    (st : state) (collector : list nat) : state * settled (list nat) :=
  match elements with
  | [] => (st, Fulfilled collector)
  | element :: rest =>
      match visit Image JSON_parse index st element with
      | (st1, inl e) => (st1, Rejected e)
      | (st1, inr elementPromise) =>
          match await elementPromise (store st1) with
          | (objects', Fulfilled element') =>
              reduceElements index rest (mkState objects' (requested st1))
                (collector ++ [element'])
          | (objects', Rejected e) => (mkState objects' (requested st1), Rejected e)
          | (objects', Pending) => (mkState objects' (requested st1), Pending)
          end
      end
  end.

Definition afterPass (networkRecords : list obj) (snapshot : settled (list obj))
    : state * settled (list nat) :=
  let index := indexedNetworkRecords networkRecords in
  match snapshot with
  | Fulfilled elements =>
      reduceElements index (seq 0 (length elements)) (mkState elements []) []
  | Rejected e => (mkState [] [], Rejected e)
  | Pending => (mkState [] [], Pending)
  end.

End Gatherer.
End ByElement.

(** ** Notions of the specification *)

(** The key under which a transfer is stored. *)
Definition keyOf (record : obj) : string := ToString (get record "_url").

(** The reducer of the index, for a given projection of the transfers. *)
Definition indexStep (entryOf : obj → obj) (map : gmap string obj) (record : obj)
    : gmap string obj :=
  if isImage record then <[keyOf record := entryOf record]> map else map.

(** The image-typed transfers stored under a given key, in input order. *)
Definition transfersAt (key : string) (networkRecords : list obj) : list obj :=
  List.filter (fun record => isImage record && String.eqb (keyOf record) key)
    networkRecords.

(** The mime type of a transfer is of the image family: the string that its
    [_mimeType] converts to begins with the five letters of [image]. *)
Definition imageFamily (record : obj) : Prop :=
  ∃ rest : string, ToString (get record "_mimeType") = "image" +:+ rest.

(** The properties copied into an entry of the index, per revision. *)
Definition entryKeys_ByTag : list string :=
  ["url"; "requestHeaders"; "resourceSize"; "startTime"; "endTime"].

Definition entryKeys_ByElement : list string :=
  ["url"; "resourceSize"; "startTime"; "endTime"; "responseReceivedTime"].

(** The properties that the specification allows in an entry. *)
Definition specifiedKeys : list string :=
  ["url"; "resourceSize"; "startTime"; "endTime"; "responseReceivedTime"].

(** An entry of the index holds the specified properties only. *)
Definition entriesAsSpecified (index : gmap string obj) : Prop :=
  map_Forall (fun _ (entry : obj) =>
                ∀ k : string, is_Some (entry !! k) → k ∈ specifiedKeys) index.

(** An entry holds exactly the properties [keys] of some image-typed transfer
    of the input, each with the value that the transfer has for it. *)
Definition entriesProject (keys : list string) (networkRecords : list obj)
    (index : gmap string obj) : Prop :=
  map_Forall (fun _ (entry : obj) =>
                ∃ record : obj,
                  record ∈ networkRecords ∧ isImage record = true ∧
                  ∀ k : string,
                    entry !! k =
                    if bool_decide (k ∈ keys) then Some (get record k) else None)
    index.

(** A transfer of an image, as the network capture reports it. *)
Definition pngTransfer : obj :=
  list_to_map [
    ("_url", VStr "http://x/a.png");
    ("_mimeType", VStr "image/png");
    ("url", VStr "http://x/a.png");
    ("requestHeaders",
     VArr [VObj (list_to_map [("name", VStr "Accept"); ("value", VStr "image/*")])]);
    ("resourceSize", VNum 1024);
    ("startTime", VNum 10);
    ("endTime", VNum 12);
    ("responseReceivedTime", VNum 11)
  ].

(** The URL declared by one entry of a [srcset]. *)
Definition candidateUrl (entry : string) : string :=
  hd "" (split " " (trim entry)).

(** The normalisation of a candidate: the URL it resolves to, and the
    candidate itself when it does not parse. *)
Definition normalized (resolveURL : string → option string) (url : string) : string :=
  match resolveURL url with
  | Some href => href
  | None => url
  end.

(** The [source] children of a [picture] whose media condition applies: no
    condition, or one that matches. *)
Definition matchingSources (matchMedia : string → bool) (parent : ParentElement)
    : list Element :=
  List.filter (fun e => isSource e && mediaMatches matchMedia e) (children parent).

(** A description is that of a grouped image, with the given sequence of
    alternatives. *)
Definition describedAsPicture (JSON_stringify : val → string)
    (record : obj) (alternatives : list obj) : Prop :=
  get record "isPicture" = VBool true ∧
  get record "sources" = VStr (JSON_stringify (VArr (VObj <$> alternatives))).

Section Records.
Variable Image : string → image_event.
Variable JSON_parse : string → option val.
Variable index : gmap string obj.

(** An element qualifies for size resolution: it is grouped, and a network
    record is stored for its source. *)
Definition qualifies (o : obj) : bool :=
  truthy (get o "isPicture") && bool_decide (is_Some (index !! ToString (get o "src"))).

(** The correlated record of an element: its sources rehydrated, its network
    record attached. *)
Definition correlatedRecord (o : obj) : error + obj :=
  match rehydrate JSON_parse o with
  | inl e => inl e
  | inr o1 => inr (link index o1)
  end.

(** The settlement of the size request for an element. *)
Definition sizeOf (o : obj) : settled obj :=
  determineNaturalSize Image (ToString (get o "src")).

(** The enriched record of an element: the correlated record, with the
    resolved natural size written over the reported one when the element
    qualifies. *)
Definition enrichedRecord (o : obj) : settled obj :=
  match correlatedRecord o with
  | inl e => Rejected e
  | inr c =>
      if qualifies o then
        match sizeOf o with
        | Fulfilled size => Fulfilled (assign_props c size)
        | Rejected e => Rejected e
        | Pending => Pending
        end
      else Fulfilled c
  end.

(** The promise that the callback makes for the element at a position. *)
Definition promiseOf (o : obj) (element : nat) : promise :=
  if qualifies o then ThenAssign (sizeOf o) element else PromiseResolve element.

(** What an object of the store can be in the course of a pass: the element
    as received, as correlated, or as enriched. *)
Definition stage (o o' : obj) : Prop :=
  o' = o ∨ correlatedRecord o = inr o' ∨ enrichedRecord o = Fulfilled o'.

(** The positions of the qualifying elements, counted from [k]. *)
Fixpoint qualifying (k : nat) (elements : list obj) : list nat :=
  match elements with
  | [] => []
  | o :: rest => (if qualifies o then [k] else []) ++ qualifying (S k) rest
  end.

End Records.

(** The value of a fulfilled promise. *)
Definition fulfilment {A} (p : settled A) : option A :=
  match p with
  | Fulfilled a => Some a
  | _ => None
  end.

(** The enriched records of all the elements, when each of them has one. *)
Definition enrichAll (Image : string → image_event)
    (JSON_parse : string → option val) (index : gmap string obj)
    (elements : list obj) : option (list obj) :=
  mapM (fun o => fulfilment (enrichedRecord Image JSON_parse index o)) elements.

(** The element that a promise is for, and the size that it assigns to it
    once settled: none for [Promise.resolve(element)]. *)
Definition promiseElement (p : promise) : nat :=
  match p with
  | PromiseResolve element => element
  | ThenAssign _ element => element
  end.

Definition promiseSettles (p : promise) : settled obj :=
  match p with
  | PromiseResolve _ => Fulfilled ∅
  | ThenAssign size _ => size
  end.

(** Every promise is for the element at its own position. *)
Definition positional (promises : list promise) : Prop :=
  ∀ i p, promises !! i = Some p → promiseElement p = i.

(** The rejection of a size request is contained: the pass is fulfilled, the
    record is in the output at its position, and its natural size is the
    reported one. *)
Definition rejectionContained (Image : string → image_event)
    (index : gmap string obj) (elements : list obj)
    (result : state * settled (list nat)) : Prop :=
  ∀ i o e,
    elements !! i = Some o →
    qualifies index o = true →
    sizeOf Image o = Rejected e →
    ∃ out o',
      result.2 = Fulfilled out ∧ out !! i = Some i ∧
      store result.1 !! i = Some o' ∧
      get o' "naturalWidth" = get o "naturalWidth" ∧
      get o' "naturalHeight" = get o "naturalHeight".

(** The output of a pass keeps the positions: it is as long as the input,
    and its element at a position is the element received at that position,
    whose object is by now the enriched record of the one received. *)
Definition positionsKept (Image : string → image_event)
    (JSON_parse : string → option val) (index : gmap string obj)
    (elements : list obj) (st : state) (out : list nat) : Prop :=
  length out = length elements ∧
  ∀ i o, elements !! i = Some o →
    out !! i = Some i ∧
    ∃ c', store st !! i = Some c' ∧
          enrichedRecord Image JSON_parse index o = Fulfilled c'.

(** The output of a pass holds every element: it is as long as the input,
    and the element at a position carries the network record stored for its
    source, or none when there is no such record. *)
Definition everyElementEmitted (index : gmap string obj)
    (elements : list obj) (st : state) (out : list nat) : Prop :=
  length out = length elements ∧
  ∀ i o, elements !! i = Some o →
    out !! i = Some i ∧
    ∃ c, store st !! i = Some c ∧
         get c "networkRecord" = indexed index (get o "src") ∧
         (index !! ToString (get o "src") = None →
          get c "networkRecord" = VUndef).

(** The correlation emits every element, whatever the input: the pass
    returns a sequence, and this sequence holds every element. *)
Definition correlationTotal (index : gmap string obj) (elements : list obj)
    (result : state * settled (list nat)) : Prop :=
  ∃ out, result.2 = Fulfilled out ∧
         everyElementEmitted index elements result.1 out.

(** The sources of an element parse, and the element is unmatched or its
    image loads. *)
Definition emittable (Image : string → image_event)
    (JSON_parse : string → option val) (index : gmap string obj) (o : obj) : Prop :=
  (∃ c, correlatedRecord JSON_parse index o = inr c) ∧
  (index !! ToString (get o "src") = None ∨
   is_fulfilled (sizeOf Image o) = true).

(** The object at a position has the natural size reported for an element. *)
Definition reportedSizeKept (st : state) (i : nat) (o : obj) : Prop :=
  ∃ o', store st !! i = Some o' ∧
        get o' "naturalWidth" = get o "naturalWidth" ∧
        get o' "naturalHeight" = get o "naturalHeight".

(** In a pass, the size of an element was requested exactly when it
    qualifies; the object of an unmatched element is its correlated
    record. *)
Definition requestedWhenQualifying (JSON_parse : string → option val)
    (index : gmap string obj) (elements : list obj) (st : state) : Prop :=
  ∀ i o, elements !! i = Some o →
    (i ∈ requested st ↔ qualifies index o = true) ∧
    (index !! ToString (get o "src") = None →
     i ∉ requested st ∧
     ∃ c, correlatedRecord JSON_parse index o = inr c ∧ store st !! i = Some c).

(** ** Sample inputs *)

(** A grouped image, as the page describes it. *)
Definition pictureElement : obj :=
  list_to_map [
    ("tagName", VStr "IMG");
    ("src", VStr "http://x/a.png");
    ("srcset", VStr "");
    ("srcsetUrls", VArr []);
    ("sizes", VStr "");
    ("clientWidth", VNum 300);
    ("clientHeight", VNum 150);
    ("naturalWidth", VNum 0);
    ("naturalHeight", VNum 0);
    ("isPicture", VBool true);
    ("sources", VStr "[]")
  ].

(** An image outside of any [picture], for which no transfer was captured. *)
Definition plainElement : obj :=
  list_to_map [
    ("tagName", VStr "IMG");
    ("src", VStr "http://x/c.png");
    ("srcset", VStr "");
    ("srcsetUrls", VArr []);
    ("sizes", VStr "");
    ("clientWidth", VNum 20);
    ("clientHeight", VNum 10);
    ("naturalWidth", VNum 40);
    ("naturalHeight", VNum 20);
    ("isPicture", VBool false)
  ].

(** A page in which no image can be loaded again. *)
Definition failingImage (url : string) : image_event :=
  ImgError (VObj {[ "type" := VStr "error" ]}).

(** A page in which every image loads, 100 pixels by 50. *)
Definition loadingImage (url : string) : image_event := ImgLoad 100 50.

(** A parser that knows the empty array only. *)
Definition parseSources (text : string) : option val :=
  if String.eqb text "[]" then Some (VArr []) else None.

(** A [picture] with three sources, of which the second does not apply, and
    its image. *)
Definition wideSource : Element :=
  mkElement "SOURCE" VUndef "wide.png 1x, wide2.png 2x" (VStr "")
    (VStr "(min-width: 600px)") (VNum 0) (VNum 0) VUndef VUndef.

Definition printSource : Element :=
  mkElement "SOURCE" VUndef "print.png" (VStr "") (VStr "print")
    (VNum 0) (VNum 0) VUndef VUndef.

Definition bareSource : Element :=
  mkElement "SOURCE" VUndef "small.png" (VStr "") (VStr "")
    (VNum 0) (VNum 0) VUndef VUndef.

Definition pictureImg : Element :=
  mkElement "IMG" (VStr "http://x/wide.png") "" (VStr "") VUndef
    (VNum 300) (VNum 150) (VNum 0) (VNum 0).

Definition samplePicture : ParentElement :=
  mkParent "PICTURE" [wideSource; printSource; bareSource; pictureImg].

Definition sampleDocument : list ImgNode := [mkImg pictureImg (Some samplePicture)].

(** A wide screen. *)
Definition wideScreen (query : string) : bool :=
  String.eqb query "(min-width: 600px)".

(** A resolver for the names of files next to the document. *)
Definition besideDocument (url : string) : option string :=
  if String.eqb url "" then None else Some (String.append "http://x/" url).

(** A serialiser that tells arrays by their length only. *)
Definition sketch (v : val) : string :=
  match v with
  | VArr l => String.append "[" (String.append (pretty (length l)) "]")
  | _ => "null"
  end.

(** ** The table formatter

    [formatters/table.js]: [createTable] lays audit results out in rows and
    columns, and the formatter named [pretty] prints such a table. *)

Module Table.

Definition backtick : ascii := "`"%char.

Definition newline : string := String (ascii_of_nat 10) EmptyString.

(** [s.startsWith('`')] and [s.endsWith('`')] *)
Definition startsWithTick (s : string) : bool :=
  match s with
  | EmptyString => false
  | String c _ => Ascii.eqb c backtick
  end.

Fixpoint endsWithTick (s : string) : bool :=
  match s with
  | EmptyString => false
  | String c EmptyString => Ascii.eqb c backtick
  | String _ s' => endsWithTick s'
  end.

(** [v.table], [v.headings], [v.rows] and [v.cols] on a value that is neither
    [undefined] nor [null]: the property of an object, and [undefined] on an
    array or a primitive, which have no property of these names. *)
Definition prop (v : val) (k : string) : val :=
  match v with
  | VObj o => get o k
  | _ => VUndef
  end.

(** [Array.isArray] *)
Definition isArray (v : val) : bool :=
  match v with
  | VArr _ => true
  | _ => false
  end.

(** [array.forEach(f)] for a callback that updates [output] and can throw. *)
Fixpoint forEachThrowing {A} (f : string → A → error + string) (output : string)
    (l : list A) : error + string :=
  match l with
  | [] => inr output
  | x :: l' =>
      match f output x with
      | inl e => inl e
      | inr output' => forEachThrowing f output' l'
      end
  end.

(** The callback on a column: [col.startsWith] throws unless [col] is a
    string. *)
Definition prettyCol (output : string) (col : val) : error + string :=
  match col with
  | VStr s =>
      if startsWithTick s && endsWithTick s then inr output
      else inr (output +:+ s +:+ " ")
  | _ => inl TypeError
  end.

(** The callback on a row: [row.cols.forEach] throws unless [row.cols] is an
    array. *)
Definition prettyRow (output : string) (row : val) : error + string :=
  match row with
  | VUndef | VNull => inl TypeError
  | _ =>
      match prop row "cols" with
      | VArr cols =>
          match forEachThrowing prettyCol (output +:+ "      ") cols with
          | inl e => inl e
          | inr output' => inr (output' +:+ newline)
          end
      | _ => inl TypeError
      end
  end.

(** The function returned by [getFormatter('pretty')]. *)
Definition pretty (result : val) : error + string :=
  if negb (truthy result) then inr ""
  else
    let table := prop result "table" in
    if negb (truthy table) || negb (isArray (prop table "headings"))
       || negb (isArray (prop table "rows"))
    then inr ""
    else
      match prop table "rows" with
      | VArr rows => forEachThrowing prettyRow "" rows
      | _ => inr ""
      end.

(** What [getFormatter] returns: the printing function, or the template read
    from [partials/table.html]. *)
Inductive formatter : Type :=
| PrettyFormatter (print : val → error + string)
| HtmlFormatter (template : string).

(** [getFormatter(type)], given the template; the message of the error
    thrown for another type. *)
Definition getFormatter (html : string) (type : val) : string + formatter :=
  match type with
  | VStr t =>
      if String.eqb t "pretty" then inr (PrettyFormatter pretty)
      else if String.eqb t "html" then inr (HtmlFormatter html)
      else inl "Unknown formatter type"
  | _ => inl "Unknown formatter type"
  end.

(** The [headings] object of [createTable], as the list of its properties in
    the order in which [Object.keys] enumerates them. *)
Definition heading (headings : list (string * val)) (key : string) : val :=
  match list_find (fun kv => String.eqb kv.1 key = true) headings with
  | Some (_, (_, v)) => v
  | None => VUndef
  end.

(** The callback on a heading key, for one result; the keys are not names of
    properties that a plain object inherits. *)
Definition cell (result : obj) (key : string) : error + val :=
  if String.eqb key "code" then
    match get result key with
    | VStr s => inr (VStr (String backtick (trim s) +:+ String backtick ""))
    | _ => inl TypeError
    end
  else if String.eqb key "lineCol" then
    inr (VStr (ToString (get result "line") +:+ ":" +:+ ToString (get result "col")))
  else inr (get result key).

(** The callback on a result: the object [{cols}]. *)
Definition tableRow (headingKeys : list string) (result : obj) : error + val :=
  match mapThrowing (cell result) headingKeys with
  | inl e => inl e
  | inr cols => inr (VObj {[ "cols" := VArr cols ]})
  end.

(** [createTable(headings, results)]; the results are objects. *)
Definition createTable (headings : list (string * val)) (results : list obj)
    : error + obj :=
  let headingKeys := headings.*1 in
  match mapThrowing (tableRow headingKeys) results with
  | inl e => inl e
  | inr rows =>
      inr (list_to_map [
             ("headings", VArr (heading headings <$> headingKeys));
             ("rows", VArr rows)
           ])
  end.

End Table.

(** The table of the tests of the formatter. *)
Definition testHeadings : list (string * val) :=
  [("url", VStr "URL"); ("lineCol", VStr "Line/col"); ("code", VStr "Snippet")].

Definition testResults : list obj :=
  [list_to_map [
     ("url", VStr "http://example.com");
     ("line", VNum 123);
     ("col", VNum 456);
     ("code", VStr "code snippet")
   ]].

(** *** What the formatter prints *)

Definition isString (v : val) : bool :=
  match v with
  | VStr _ => true
  | _ => false
  end.

(** A row that [pretty] can print: an object whose [cols] is an array of
    strings. *)
Definition printableRow (row : val) : bool :=
  match row with
  | VObj o =>
      match get o "cols" with
      | VArr cols => forallb isString cols
      | _ => false
      end
  | _ => false
  end.

(** What a column adds to the output: nothing for a string between
    backticks, the string and a space otherwise. *)
Definition shownCol (col : val) : string :=
  match col with
  | VStr s =>
      if Table.startsWithTick s && Table.endsWithTick s then "" else s +:+ " "
  | _ => ""
  end.

(** The line printed for a row: six spaces, the columns, a line feed. *)
Definition printedRow (row : val) : string :=
  match Table.prop row "cols" with
  | VArr cols =>
      "      " +:+ foldr (fun col line => shownCol col +:+ line) "" cols
      +:+ Table.newline
  | _ => ""
  end.

Definition printedRows (rows : list val) : string :=
  foldr (fun row text => printedRow row +:+ text) "" rows.

(** The value given to [pretty] is an object with a table whose [headings]
    is an array and whose [rows] is the given array. *)
Definition tableOf (result : val) (rows : list val) : Prop :=
  truthy result = true ∧
  truthy (Table.prop result "table") = true ∧
  Table.isArray (Table.prop (Table.prop result "table") "headings") = true ∧
  Table.prop (Table.prop result "table") "rows" = VArr rows.

(** The headings without the one named [code]. *)
Definition withoutCode (headings : list (string * val)) : list (string * val) :=
  List.filter (fun kv => negb (String.eqb kv.1 "code")) headings.

(** A result has a snippet of code: its [code] is a string. *)
Definition hasCode (result : obj) : bool := isString (get result "code").

(** The value that [createTable] puts in the column of a heading key. *)
Definition cellValue (result : obj) (key : string) : val :=
  if String.eqb key "code" then
    VStr (String Table.backtick (trim (ToString (get result "code")))
          +:+ String Table.backtick "")
  else if String.eqb key "lineCol" then
    VStr (ToString (get result "line") +:+ ":" +:+ ToString (get result "col"))
  else get result key.

(** The columns of a result that [pretty] prints: those of the headings
    other than [code]. *)
Definition printedKeys (headings : list (string * val)) : list string :=
  (withoutCode headings).*1.

(** The columns of a result under the printed headings are strings. *)
Definition printableResult (headings : list (string * val)) (result : obj) : bool :=
  forallb (fun key => isString (cellValue result key)) (printedKeys headings).

(** The line of a result: six spaces, the printed columns that are not
    between backticks, each followed by a space, and a line feed. *)
Definition lineOf (headings : list (string * val)) (result : obj) : string :=
  "      "
  +:+ foldr (fun key line => shownCol (cellValue result key) +:+ line) ""
        (printedKeys headings)
  +:+ Table.newline.

(** ** Well-formed [srcset] attributes *)

(** Every code unit of a string passes a test. *)
Fixpoint allChars (p : ascii → bool) (s : string) : bool :=
  match s with
  | EmptyString => true
  | String c s' => p c && allChars p s'
  end.

(** A URL as written in a [srcset]: not empty, without white space and
    without comma. *)
Definition plainUrl (url : string) : bool :=
  negb (String.eqb url "")
  && allChars (fun c => negb (isWhiteSpace c) && negb (Ascii.eqb c ",")) url.

(** The [srcset] that declares the given candidates, each an URL and a
    descriptor, separated by a comma and a space. *)
Definition srcsetOf (candidates : list (string * string)) : string :=
  String.concat ", " (List.map (fun c => c.1 +:+ " " +:+ c.2) candidates).

(** ** What the page returns *)

(** The page script returns one description per image, each of whose
    images has a parent; or it throws a [TypeError], some image having no
    parent. *)
Definition describesEveryImage (document : list ImgNode)
    (returned : error + list obj) : Prop :=
  match returned with
  | inr records =>
      length records = length document ∧
      Forall (fun node => is_Some (parentElement node)) document
  | inl e =>
      e = TypeError ∧
      Exists (fun node => parentElement node = None) document
  end.

(** The URLs that a [srcset] declares, normalised: none for the empty
    string, and otherwise the one of each entry between commas. *)
Definition declaredUrls (resolveURL : string → option string) (srcset : string)
    : list string :=
  if String.eqb srcset "" then []
  else (fun entry => normalized resolveURL (candidateUrl entry)) <$>
         split "," srcset.

(** A description is that of an image outside of any [picture]: it holds
    the ten properties read from the image, each with the value that the
    image has for it, and an [isPicture] that is [false]; it holds nothing
    else, and so no [sources]. *)
Definition describedAsPlain (resolveURL : string → option string)
    (image : Element) (record : obj) : Prop :=
  record !! "tagName" = Some (VStr (tagName image)) ∧
  record !! "src" = Some (currentSrc image) ∧
  record !! "srcset" = Some (VStr (srcset image)) ∧
  record !! "srcsetUrls" =
    Some (VArr (VStr <$> declaredUrls resolveURL (srcset image))) ∧
  record !! "sizes" = Some (sizes image) ∧
  record !! "media" = Some (media image) ∧
  record !! "clientWidth" = Some (clientWidth image) ∧
  record !! "clientHeight" = Some (clientHeight image) ∧
  record !! "naturalWidth" = Some (naturalWidth image) ∧
  record !! "naturalHeight" = Some (naturalHeight image) ∧
  record !! "isPicture" = Some (VBool false) ∧
  record !! "sources" = None ∧
  dom record =
    list_to_set ["tagName"; "src"; "srcset"; "srcsetUrls"; "sizes"; "media";
                 "clientWidth"; "clientHeight"; "naturalWidth"; "naturalHeight";
                 "isPicture"].

(** ** Keys that can be picked *)

(** The names that every object inherits from [Object.prototype]: reading
    one of them from an object that lacks it yields the inherited value, and
    writing [__proto__] sets the prototype and adds no property. *)
Definition inheritedNames : list string :=
  ["__proto__"; "constructor"; "hasOwnProperty"; "isPrototypeOf";
   "propertyIsEnumerable"; "toLocaleString"; "toString"; "valueOf";
   "__defineGetter__"; "__defineSetter__"; "__lookupGetter__";
   "__lookupSetter__"].

(** Keys of data: none of them is an inherited name. *)
Definition dataKeys (keys : list string) : Prop :=
  Forall (fun key => key ∉ inheritedNames) keys.

(** ** What a pass leaves in the store *)



(** ** Where a chained pass stops *)

(** The pass stopped at the element of position [j]: its outcome is that of
    the enrichment of this element, which did not succeed; the objects
    before that position are enriched records, those after it are as
    received, and no size was requested beyond that position. *)
Definition stoppedAt (Image : string → image_event)
    (JSON_parse : string → option val) (index : gmap string obj)
    (elements : list obj) (st : state) (r : settled (list nat)) (j : nat) : Prop :=
  (∃ o, elements !! j = Some o ∧
        match enrichedRecord Image JSON_parse index o with
        | Fulfilled _ => False
        | Rejected e => r = Rejected e
        | Pending => r = Pending
        end)
  ∧ (∀ i o, i < j → elements !! i = Some o →
       ∃ c', enrichedRecord Image JSON_parse index o = Fulfilled c' ∧
             store st !! i = Some c')
  ∧ (∀ i, j < i → store st !! i = elements !! i)
  ∧ (∀ i, i ∈ requested st → i ≤ j).

(** The [sources] of a record are those of the element it comes from,
    rehydrated: the value parsed from the text received, or the falsy value
    received. *)
Definition rehydrated (JSON_parse : string → option val) (o c : obj) : Prop :=
  if truthy (get o "sources")
  then JSON_parse (ToString (get o "sources")) = Some (get c "sources")
  else get c "sources" = get o "sources".

(** The store of a pass holds, for each element, a record with rehydrated
    sources. *)
Definition sourcesRehydrated (JSON_parse : string → option val)
    (elements : list obj) (st : state) : Prop :=
  ∀ i o, elements !! i = Some o →
    ∃ c, store st !! i = Some c ∧ rehydrated JSON_parse o c.

(** ** Further sample inputs *)

(** An image in a paragraph. *)
Definition plainDocument : list ImgNode :=
  [mkImg pictureImg (Some (mkParent "P" [pictureImg]))].

(** A grouped image whose [sources] is not the text of a value. *)
Definition brokenElement : obj := <["sources" := VStr "{"]> pictureElement.

(** A transfer of a page. *)
Definition htmlTransfer : obj := <["_mimeType" := VStr "text/html"]> pngTransfer.

(** * Properties *)

(** ** The index of network records *)

Section Index.
Variable entryOf : obj -> obj.

Lemma index_lookup_from (records : list obj) (m0 : gmap string obj) (key : string) :
  foldl (indexStep entryOf) m0 records !! key =
  match last (transfersAt key records) with
  | Some record => Some (entryOf record)
  | None => m0 !! key
  end.
Proof.
  induction records as [|record records IH] using rev_ind; [done|].
  rw foldl_app /= /transfersAt List.filter_app /=.
  unfold indexStep at 1.
  destruct (isImage record) eqn:Himg; simpl.
  - destruct (String.eqb (keyOf record) key) eqn:Hkey; simpl.
    + apply String.eqb_eq in Hkey. subst key.
      by rw last_snoc lookup_insert_eq.
    + apply String.eqb_neq in Hkey.
      rw app_nil_r lookup_insert_ne //.
  - by rw app_nil_r.
Qed.

Lemma index_filter_from (records : list obj) (m0 : gmap string obj) :
  foldl (indexStep entryOf) m0 records = foldl (indexStep entryOf) m0 (List.filter isImage records).
Proof.
  revert m0. induction records as [|record records IH]; intros m0; [done|].
  simpl. destruct (isImage record) eqn:Himg; simpl.
  - rw IH. unfold indexStep at 2 4. by rw Himg.
  - rw -IH. unfold indexStep at 2. by rw Himg.
Qed.

Lemma transfersAt_last_is_Some (key : string) (records : list obj) :
  is_Some (last (transfersAt key records)) ↔
  ∃ record, record ∈ records ∧ isImage record = true ∧ keyOf record = key.
Proof.
  unfold transfersAt. split.
  - intros [record Hlast]. exists record.
    apply last_Some in Hlast as [l' Hl'].
    assert (In record (List.filter
      (fun record => isImage record && String.eqb (keyOf record) key) records))
      as Hin by (rw Hl'; apply in_or_app; right; by left).
    apply filter_In in Hin as [Hin Hp].
    apply andb_prop in Hp as [? Hk]. apply String.eqb_eq in Hk.
    by rw list_elem_of_In.
  - intros (record & Hin & Himg & Hkey).
    assert (In record (List.filter
      (fun record => isImage record && String.eqb (keyOf record) key) records))
      as Hin'.
    { apply filter_In. rw -list_elem_of_In. split; [done|].
      rw Himg /=. by apply String.eqb_eq. }
    destruct (List.filter _ records) as [|x l] eqn:E using rev_ind; [done|].
    rw last_snoc. eauto.
Qed.

End Index.

Lemma pick_lookup (o : obj) (keys : list string) (k : string) :
  ByTag.pick o keys !! k =
  if bool_decide (k ∈ keys) then Some (get o k) else None.
Proof.
  unfold ByTag.pick.
  induction keys as [|key keys IH] using rev_ind; [done|].
  rw foldl_app /= lookup_insert.
  destruct (decide (key = k)) as [->|Hk].
  - rw bool_decide_true //. set_solver.
  - rw IH. repeat case_bool_decide; set_solver.
Qed.

Lemma literal_lookup (o : obj) (keys : list string) (k : string) :
  (list_to_map ((fun key => (key, get o key)) <$> keys) : obj) !! k =
  if bool_decide (k ∈ keys) then Some (get o k) else None.
Proof.
  induction keys as [|key keys IH]; [done|].
  rw fmap_cons /= lookup_insert.
  destruct (decide (key = k)) as [->|Hk].
  - rw bool_decide_true //. set_solver.
  - rw IH. repeat case_bool_decide; set_solver.
Qed.

Lemma index_entries (entryOf : obj → obj) (records : list obj) :
  map_Forall (fun _ (entry : obj) =>
                ∃ record : obj, record ∈ records ∧ isImage record = true ∧
                                entry = entryOf record)
    (foldl (indexStep entryOf) ∅ records).
Proof.
  intros key entry Hentry.
  rw index_lookup_from lookup_empty in Hentry.
  destruct (last (transfersAt key records)) as [record|] eqn:Hlast; [|done].
  injection Hentry as <-.
  destruct (proj1 (transfersAt_last_is_Some key records)) as (r & Hin & Himg & Hk);
    [eauto|].
  apply last_Some in Hlast as [l' Hl'].
  assert (In record (transfersAt key records)) as Hrec
    by (rw Hl'; apply in_or_app; right; by left).
  apply filter_In in Hrec as [Hrec Hp].
  apply andb_prop in Hp as [? ?].
  exists record. by rw list_elem_of_In.
Qed.

Lemma revisions_lookup (networkRecords : list obj) (key : string) :
  ByTag.indexedNetworkRecords networkRecords !! key =
    (fun record => ByTag.pick record ByTag.pickedKeys) <$>
      last (transfersAt key networkRecords)
  ∧ ByElement.indexedNetworkRecords networkRecords !! key =
    ByElement.networkRecordOf <$> last (transfersAt key networkRecords).
Proof.
  split.
  - change (ByTag.indexedNetworkRecords networkRecords)
      with (foldl (indexStep (fun r => ByTag.pick r ByTag.pickedKeys)) ∅
              networkRecords).
    rw index_lookup_from. by destruct (last _).
  - change (ByElement.indexedNetworkRecords networkRecords)
      with (foldl (indexStep ByElement.networkRecordOf) ∅ networkRecords).
    rw index_lookup_from. by destruct (last _).
Qed.

(** C5: the index maps a URL to at most one record, and the record kept for
    a URL is the projection of the last image-typed transfer with that URL,
    in input order; this holds in both revisions. *)
Theorem index_last_write_wins (networkRecords : list obj) (key : string) :
  ByTag.indexedNetworkRecords networkRecords !! key =
    (fun record => ByTag.pick record ByTag.pickedKeys) <$>
      last (transfersAt key networkRecords)
  ∧ ByElement.indexedNetworkRecords networkRecords !! key =
    ByElement.networkRecordOf <$> last (transfersAt key networkRecords).
Proof. apply revisions_lookup. Qed.

Lemma prefix_append (p s : string) :
  String.prefix p s = true → ∃ rest : string, s = p +:+ rest.
Proof.
  revert s. induction p as [|a p IH]; intros s Hprefix.
  - by exists s.
  - destruct s as [|b s]; [done|].
    change (String.prefix (String a p) (String b s))
      with (match ascii_dec a b with
            | left _ => String.prefix p s
            | right _ => false
            end) in Hprefix.
    destruct (ascii_dec a b) as [-> | _]; [|done].
    destruct (IH s Hprefix) as [rest ->]. by exists rest.
Qed.

Lemma isImage_imageFamily (record : obj) :
  isImage record = true ↔ imageFamily record.
Proof.
  unfold isImage, imageFamily. split.
  - apply prefix_append.
  - intros [rest ->]. by destruct rest.
Qed.

(** C9: the index retains a transfer only if its mime type is of the image
    family, that is, begins with [image]: a key has an entry exactly when
    some transfer with that URL has such a mime type; and a transfer whose
    mime type is outside the family is ignored: the index is the one of
    the capture without this transfer.  This holds in both revisions. *)
Theorem index_only_images (networkRecords : list obj) :
  (∀ key : string,
     (is_Some (ByTag.indexedNetworkRecords networkRecords !! key) ↔
      ∃ record, record ∈ networkRecords ∧ imageFamily record ∧
                keyOf record = key)
     ∧ (is_Some (ByElement.indexedNetworkRecords networkRecords !! key) ↔
        ∃ record, record ∈ networkRecords ∧ imageFamily record ∧
                  keyOf record = key))
  ∧ (∀ (before : list obj) (record : obj) (after : list obj),
       networkRecords = before ++ record :: after →
       ¬ imageFamily record →
       ByTag.indexedNetworkRecords networkRecords =
         ByTag.indexedNetworkRecords (before ++ after)
       ∧ ByElement.indexedNetworkRecords networkRecords =
         ByElement.indexedNetworkRecords (before ++ after)).
Proof.
  split.
  - intros key.
    destruct (revisions_lookup networkRecords key) as [-> ->].
    rw !fmap_is_Some.
    assert (is_Some (last (transfersAt key networkRecords)) ↔
            ∃ record, record ∈ networkRecords ∧ imageFamily record ∧
                      keyOf record = key) as Hlast.
    { rw transfersAt_last_is_Some.
      split; intros (record & Hin & Himg & Hkey); exists record;
        (split; [done|]); (split; [|done]); by apply isImage_imageFamily. }
    by split.
  - intros before record after -> Hout.
    assert (isImage record = false) as Himg.
    { destruct (isImage record) eqn:Himg; [|done].
      by apply isImage_imageFamily in Himg. }
    assert (List.filter isImage (before ++ record :: after) =
            List.filter isImage (before ++ after)) as Hfilter.
    { by rw !List.filter_app /= Himg. }
    split.
    + transitivity (foldl (indexStep (fun r => ByTag.pick r ByTag.pickedKeys)) ∅
                      (List.filter isImage (before ++ record :: after))).
      * apply (index_filter_from (fun r => ByTag.pick r ByTag.pickedKeys)).
      * rw Hfilter. symmetry.
        apply (index_filter_from (fun r => ByTag.pick r ByTag.pickedKeys)).
    + transitivity (foldl (indexStep ByElement.networkRecordOf) ∅
                      (List.filter isImage (before ++ record :: after))).
      * apply (index_filter_from ByElement.networkRecordOf).
      * rw Hfilter. symmetry.
        apply (index_filter_from ByElement.networkRecordOf).
Qed.

(** C6, as stated, fails on the first revision: the entry kept for a transfer
    carries its [requestHeaders], which is none of the specified
    properties. *)
Lemma index_entry_carries_requestHeaders :
  ¬ entriesAsSpecified (ByTag.indexedNetworkRecords [pngTransfer]).
Proof.
  intros Hspec.
  assert (ByTag.indexedNetworkRecords [pngTransfer] !! "http://x/a.png"
          = Some (ByTag.pick pngTransfer ByTag.pickedKeys)) as Hentry
    by (vm_compute; reflexivity).
  specialize (Hspec _ _ Hentry "requestHeaders").
  assert ("requestHeaders" ∈ specifiedKeys) as Hin.
  { apply Hspec. vm_compute. eauto. }
  unfold specifiedKeys in Hin. set_solver.
Qed.

(** C6, amended: an entry of the index is the projection of an image-typed
    transfer on a fixed list of properties, and holds nothing else: [url],
    [requestHeaders], [resourceSize], [startTime] and [endTime] in the first
    revision; [url], [resourceSize], [startTime], [endTime] and
    [responseReceivedTime] in the later one, whose entries are therefore as
    specified. *)
Theorem index_entry_projection (networkRecords : list obj) :
  entriesProject entryKeys_ByTag networkRecords
    (ByTag.indexedNetworkRecords networkRecords)
  ∧ entriesProject entryKeys_ByElement networkRecords
      (ByElement.indexedNetworkRecords networkRecords)
  ∧ entriesAsSpecified (ByElement.indexedNetworkRecords networkRecords).
Proof.
  assert (entriesProject entryKeys_ByElement networkRecords
            (ByElement.indexedNetworkRecords networkRecords)) as HbyElement.
  { intros key entry Hentry.
    destruct (index_entries ByElement.networkRecordOf networkRecords key entry
                Hentry) as (record & Hin & Himg & ->).
    exists record. split; [done|]. split; [done|]. intros k.
    apply (literal_lookup record entryKeys_ByElement k). }
  split; [|split; [exact HbyElement|]].
  - intros key entry Hentry.
    destruct (index_entries (fun r => ByTag.pick r ByTag.pickedKeys)
                networkRecords key entry Hentry) as (record & Hin & Himg & ->).
    exists record. split; [done|]. split; [done|]. intros k.
    apply pick_lookup.
  - intros key entry Hentry k [v Hv].
    destruct (HbyElement key entry Hentry) as (record & _ & _ & Hk).
    rw Hk in Hv. by case_bool_decide.
Qed.

(** ** Candidate URLs of a [srcset] *)

Example split_srcset :
  split "," "a.png 1x, b.png 2x" = ["a.png 1x"; " b.png 2x"].
Proof. reflexivity. Qed.

Example split_trailing_comma : split "," "a.png," = ["a.png"; ""].
Proof. reflexivity. Qed.

Example relativeUrls_srcset :
  relativeUrls "  a.png 1x ,	b.png   2x" = ["a.png"; "b.png"].
Proof. reflexivity. Qed.

Lemma split_nonempty (sep : ascii) (s : string) : split sep s ≠ [].
Proof. destruct s as [|c s]; simpl; [done|]. by repeat case_match. Qed.

Lemma split_length (sep : ascii) (s : string) :
  length (split sep s) = S (occurrences sep s).
Proof.
  induction s as [|c s IH]; simpl; [done|].
  destruct (Ascii.eqb c sep); simpl; [by rw IH|].
  destruct (split sep s) eqn:E; [by apply split_nonempty in E|].
  by rw -IH.
Qed.

(** C7: parsing a [srcset] yields one URL per comma-separated entry, none for
    the empty string, and the URL at a position is the normalisation of the
    candidate declared there: the candidate as it stands when it does not
    parse.  The parser is a total function; this holds in both revisions. *)
Theorem srcset_one_url_per_candidate (resolveURL : string → option string)
    (srcset : string) :
  (length (ByElement.parseSrcsetUrls resolveURL srcset) =
     if String.eqb srcset "" then 0%nat else S (occurrences "," srcset))
  ∧ (length (ByTag.parseSrcsetUrls resolveURL srcset) =
     if String.eqb srcset "" then 0%nat else S (occurrences "," srcset))
  ∧ ∀ i : nat,
      ByElement.parseSrcsetUrls resolveURL srcset !! i =
        (if String.eqb srcset "" then None
         else (fun entry => normalized resolveURL (candidateUrl entry)) <$>
                (split "," srcset !! i))
      ∧ ByTag.parseSrcsetUrls resolveURL srcset !! i =
        (if String.eqb srcset "" then None
         else (fun entry => normalized resolveURL (candidateUrl entry)) <$>
                (split "," srcset !! i)).
Proof.
  unfold ByElement.parseSrcsetUrls, ByTag.parseSrcsetUrls, relativeUrls.
  destruct (String.eqb srcset ""); [by repeat split|].
  rw !length_map split_length. split; [done|]. split; [done|].
  intros i.
  repeat match goal with
         | |- context [List.map ?f ?l] => change (List.map f l) with (f <$> l)
         end.
  rw !list_lookup_fmap.
  by destruct (split "," srcset !! i).
Qed.

(** ** Alternatives of a grouped image *)

Lemma filter_filter_andb {A} (f g : A → bool) (l : list A) :
  List.filter g (List.filter f l) = List.filter (fun x => f x && g x) l.
Proof.
  induction l as [|x l IH]; simpl; [done|].
  destruct (f x); simpl; [|done]. destruct (g x); by rw IH.
Qed.

Lemma filter_sublist_of {A} (f : A → bool) (l : list A) :
  List.filter f l `sublist_of` l.
Proof.
  induction l as [|x l IH]; simpl; [constructor|].
  destruct (f x); by constructor.
Qed.

Lemma mapThrowing_lookup {A B} (f : A → error + B) (l : list A) (ys : list B)
    (i : nat) (x : A) :
  mapThrowing f l = inr ys → l !! i = Some x →
  ∃ y, f x = inr y ∧ ys !! i = Some y.
Proof.
  revert ys i. induction l as [|a l IH]; intros ys i Hmap Hi; [done|].
  simpl in Hmap. destruct (f a) as [e|y] eqn:Hfa; [done|].
  destruct (mapThrowing f l) as [e|ys'] eqn:Hrest; [done|].
  injection Hmap as <-. destruct i as [|i]; simpl in *.
  - injection Hi as <-. eauto.
  - by apply IH.
Qed.

Lemma mapThrowing_total {A B} (f : A → error + B) (l : list A) :
  Forall (fun x => ∃ y, f x = inr y) l → ∃ ys, mapThrowing f l = inr ys.
Proof.
  induction 1 as [|x l [y Hy] _ [ys Hys]]; simpl; [by eexists|].
  rw Hy Hys. by eexists.
Qed.

Lemma describeImage_total (matchMedia : string → bool)
    (JSON_stringify : val → string) (info : Element → obj)
    (document : list ImgNode) :
  Forall (fun node => is_Some (parentElement node)) document →
  ∃ records,
    mapThrowing (describeImage matchMedia JSON_stringify info) document
    = inr records.
Proof.
  intros Hparents. apply mapThrowing_total.
  eapply Forall_impl; [exact Hparents|]. intros node [parent Hparent].
  unfold describeImage. rw Hparent. case_match; by eexists.
Qed.

Lemma describeImage_picture (matchMedia : string → bool)
    (JSON_stringify : val → string) (info : Element → obj) (node : ImgNode)
    (parent : ParentElement) :
  parentElement node = Some parent →
  parentTagName parent = "PICTURE" →
  ∃ record,
    describeImage matchMedia JSON_stringify info node = inr record ∧
    describedAsPicture JSON_stringify record
      ((info <$> matchingSources matchMedia parent) ++ [info (img node)]).
Proof.
  intros Hparent Htag. unfold describeImage, describedAsPicture.
  rw Hparent Htag /=. eexists. split; [done|].
  unfold get, assign_props, pictureSources, matchingSources.
  rw filter_filter_andb. split.
  - erewrite lookup_union_Some_l; [done|]. by rw /= lookup_insert_eq.
  - erewrite lookup_union_Some_l; [done|].
    by rw /= lookup_insert_ne // lookup_insert_eq.
Qed.

Lemma matchingSources_spec (matchMedia : string → bool) (parent : ParentElement)
    (e : Element) :
  e ∈ matchingSources matchMedia parent ↔
  e ∈ children parent ∧ tagName e = "SOURCE" ∧
  (truthy (media e) = false ∨ matchMedia (ToString (media e)) = true).
Proof.
  unfold matchingSources, isSource, mediaMatches.
  rw !list_elem_of_In filter_In andb_true_iff orb_true_iff negb_true_iff.
  by rw String.eqb_eq.
Qed.

(** C8: for an image whose parent is a [picture], the [sources] of its
    description are the descriptions of the [source] children whose media
    condition applies (none declared, or one that matches), in document
    order, followed by the description of the image itself; the sequence is
    therefore never empty.  This holds in both revisions, for the image at
    any position of the document, and the page script returns the
    descriptions whenever each image has a parent. *)
Theorem picture_sources_end_with_image (resolveURL : string → option string)
    (matchMedia : string → bool) (JSON_stringify : val → string)
    (document : list ImgNode) (i : nat) (node : ImgNode) (parent : ParentElement) :
  document !! i = Some node →
  parentElement node = Some parent →
  parentTagName parent = "PICTURE" →
  let matching := matchingSources matchMedia parent in
  let alternatives (info : Element → obj) :=
    (info <$> matching) ++ [info (img node)] in
  (matching `sublist_of` children parent
   ∧ ∀ e, e ∈ matching ↔
          e ∈ children parent ∧ tagName e = "SOURCE" ∧
          (truthy (media e) = false ∨ matchMedia (ToString (media e)) = true))
  ∧ (∀ info, alternatives info ≠ [] ∧
             last (alternatives info) = Some (info (img node)))
  ∧ (∀ records,
       ByElement.collectImageElementInfo resolveURL matchMedia JSON_stringify
         document = inr records →
       ∃ record, records !! i = Some record ∧
         describedAsPicture JSON_stringify record
           (alternatives (ByElement.getElementInfo resolveURL)))
  ∧ (∀ records,
       ByTag.collectImageTagInfo resolveURL matchMedia JSON_stringify
         document = inr records →
       ∃ record, records !! i = Some record ∧
         describedAsPicture JSON_stringify record
           (alternatives (ByTag.toObject resolveURL)))
  ∧ (Forall (fun node => is_Some (parentElement node)) document →
     (∃ records,
        ByElement.collectImageElementInfo resolveURL matchMedia JSON_stringify
          document = inr records)
     ∧ (∃ records,
          ByTag.collectImageTagInfo resolveURL matchMedia JSON_stringify
            document = inr records)).
Proof.
  intros Hnode Hparent Htag matching alternatives.
  split; [split|split; [|split; [|split]]]; [| | | | |by split; apply describeImage_total].
  - apply filter_sublist_of.
  - apply matchingSources_spec.
  - intros info. unfold alternatives. split; [by destruct (info <$> matching)|].
    apply last_snoc.
  - intros records Hrecords.
    destruct (mapThrowing_lookup _ _ _ _ _ Hrecords Hnode) as (record & Hd & Hi).
    destruct (describeImage_picture matchMedia JSON_stringify
                (ByElement.getElementInfo resolveURL) node parent Hparent Htag)
      as (record' & Hd' & Hpic).
    exists record. split; [done|]. rw Hd in Hd'. by injection Hd' as <-.
  - intros records Hrecords.
    destruct (mapThrowing_lookup _ _ _ _ _ Hrecords Hnode) as (record & Hd & Hi).
    destruct (describeImage_picture matchMedia JSON_stringify
                (ByTag.toObject resolveURL) node parent Hparent Htag)
      as (record' & Hd' & Hpic).
    exists record. split; [done|]. rw Hd in Hd'. by injection Hd' as <-.
Qed.

(** ** The callback on one element *)

Section Callback.
Variable Image : string → image_event.
Variable JSON_parse : string → option val.
Variable index : gmap string obj.

Lemma truthy_indexed (key : val) :
  truthy (indexed index key) = bool_decide (is_Some (index !! ToString key)).
Proof.
  unfold indexed. by destruct (index !! ToString key).
Qed.

Lemma get_insert_ne (o : obj) (k k' : string) (v : val) :
  k ≠ k' → get (<[k := v]> o) k' = get o k'.
Proof. intros Hk. unfold get. by rw lookup_insert_ne. Qed.

Lemma get_insert_eq (o : obj) (k : string) (v : val) :
  get (<[k := v]> o) k = v.
Proof. unfold get. by rw lookup_insert_eq. Qed.

Lemma rehydrate_get (o o1 : obj) (k : string) :
  rehydrate JSON_parse o = inr o1 → k ≠ "sources" → get o1 k = get o k.
Proof.
  unfold rehydrate. intros Hre Hk.
  destruct (truthy (get o "sources")).
  - destruct (JSON_parse _); [|done]. injection Hre as <-.
    by apply get_insert_ne.
  - injection Hre as <-. by apply get_insert_ne.
Qed.

Lemma correlatedRecord_get (o c : obj) (k : string) :
  correlatedRecord JSON_parse index o = inr c →
  k ≠ "sources" → k ≠ "networkRecord" → get c k = get o k.
Proof.
  unfold correlatedRecord. intros Hc Hk1 Hk2.
  destruct (rehydrate JSON_parse o) as [e|o1] eqn:Hre; [done|].
  injection Hc as <-. unfold link. rw get_insert_ne //.
  by eapply rehydrate_get.
Qed.

Lemma correlatedRecord_networkRecord (o c : obj) :
  correlatedRecord JSON_parse index o = inr c →
  get c "networkRecord" = indexed index (get o "src").
Proof.
  unfold correlatedRecord. intros Hc.
  destruct (rehydrate JSON_parse o) as [e|o1] eqn:Hre; [done|].
  injection Hc as <-. unfold link. rw get_insert_eq.
  by erewrite rehydrate_get.
Qed.

Lemma needsSize_correlated (o c : obj) :
  correlatedRecord JSON_parse index o = inr c →
  needsSize c = qualifies index o.
Proof.
  intros Hc. unfold needsSize, qualifies, js_and.
  rw (correlatedRecord_networkRecord _ _ Hc).
  rw (correlatedRecord_get _ _ "isPicture" Hc) //.
  rw -truthy_indexed.
  by destruct (truthy (get o "isPicture")) eqn:HisPicture.
Qed.

(** The callback, in terms of the record notions. *)
Lemma visit_unfold (st : state) (element : nat) (o : obj) :
  store st !! element = Some o →
  visit Image JSON_parse index st element =
  match correlatedRecord JSON_parse index o with
  | inl e => (st, inl e)
  | inr c =>
      (mkState (<[element := c]> (store st))
         (requested st ++ if qualifies index o then [element] else []),
       inr (promiseOf Image index o element))
  end.
Proof.
  intros Ho. unfold visit. rw Ho.
  pose proof (needsSize_correlated o) as Hneeds.
  pose proof (fun c => correlatedRecord_get o c "src") as Hsrc.
  unfold correlatedRecord in *.
  destruct (rehydrate JSON_parse o) as [e|o1]; [done|].
  rw (Hneeds _ eq_refl). unfold promiseOf.
  destruct (qualifies index o).
  - unfold fetchElementWithSizeInformation. simpl.
    rw list_lookup_insert_eq; [by eapply lookup_lt_Some|].
    unfold sizeOf. by rw (Hsrc _ eq_refl).
  - by rw app_nil_r.
Qed.

Lemma alter_as_insert {A} (f : A → A) (l : list A) (i : nat) (x : A) :
  l !! i = Some x → alter f i l = <[i := f x]> l.
Proof.
  intros Hx. apply list_eq. intros j.
  destruct (decide (i = j)) as [->|Hne].
  - rw list_lookup_alter_eq Hx list_lookup_insert_eq //.
    by eapply lookup_lt_Some.
  - rw list_lookup_alter_ne // list_lookup_insert_ne //.
Qed.

(** The settlement of the promise of an element, in terms of its enriched
    record. *)
Lemma await_promiseOf (objs : list obj) (element : nat) (o c : obj) :
  correlatedRecord JSON_parse index o = inr c →
  objs !! element = Some c →
  await (promiseOf Image index o element) objs =
  match enrichedRecord Image JSON_parse index o with
  | Fulfilled c' => (<[element := c']> objs, Fulfilled element)
  | Rejected e => (objs, Rejected e)
  | Pending => (objs, Pending)
  end.
Proof.
  intros Hc Hobjs. unfold promiseOf, enrichedRecord. rw Hc.
  destruct (qualifies index o); simpl.
  - destruct (sizeOf Image o) as [size|e|]; simpl; [|done..].
    by rw (alter_as_insert _ _ _ _ Hobjs).
  - by rw list_insert_id.
Qed.

(** C10: when the image of an element loads with a natural size, the promise
    made by [fetchElementWithSizeInformation] (and by
    [fetchTagWithSizeInformation], the same function) is fulfilled with the
    element that it was given; the object of the element is updated in
    place, its [naturalWidth] and [naturalHeight] are the loaded ones, each
    other property is as before, and no other object of the store
    changes. *)
Theorem size_assigned_in_place (st : state) (element : nat) (o : obj) (w h : Z) :
  store st !! element = Some o →
  Image (ToString (get o "src")) = ImgLoad w h →
  ∃ (p : promise) (o' : obj),
    fetchElementWithSizeInformation Image st element =
      (mkState (store st) (requested st ++ [element]), inr p)
    ∧ ByTag.fetchTagWithSizeInformation Image st element =
      (mkState (store st) (requested st ++ [element]), inr p)
    ∧ await p (store st) = (<[element := o']> (store st), Fulfilled element)
    ∧ get o' "naturalWidth" = VNum w
    ∧ get o' "naturalHeight" = VNum h
    ∧ (∀ k, k ≠ "naturalWidth" → k ≠ "naturalHeight" → o' !! k = o !! k)
    ∧ (∀ j, j ≠ element → <[element := o']> (store st) !! j = store st !! j).
Proof.
  intros Ho Himg.
  unfold ByTag.fetchTagWithSizeInformation, fetchElementWithSizeInformation,
    determineNaturalSize.
  rw Ho Himg. do 2 eexists. split; [done|]. split; [done|]. simpl.
  rw (alter_as_insert _ _ _ _ Ho). split; [done|].
  unfold get, assign_props. repeat split.
  - erewrite lookup_union_Some_l; [done|]. by rw /= lookup_insert_eq.
  - erewrite lookup_union_Some_l; [done|].
    by rw /= lookup_insert_ne // lookup_insert_eq.
  - intros k Hw Hh. apply lookup_union_r.
    by rw /= !lookup_insert_ne // lookup_empty.
  - intros j Hj. by rw list_lookup_insert_ne.
Qed.

End Callback.

(** ** The elements one after the other *)

Section Serial.
Variable Image : string → image_event.
Variable JSON_parse : string → option val.
Variable index : gmap string obj.

Lemma stage_refl (rest : list obj) :
  Forall2 (stage Image JSON_parse index) rest rest.
Proof. apply Forall2_same_length_lookup_2; [done|]. intros i x y ? ?. left. congruence. Qed.

Lemma enrichAll_cons (o : obj) (rest : list obj) :
  enrichAll Image JSON_parse index (o :: rest) =
  match enrichedRecord Image JSON_parse index o with
  | Fulfilled c' => (c' ::.) <$> enrichAll Image JSON_parse index rest
  | _ => None
  end.
Proof.
  unfold enrichAll. simpl.
  by destruct (enrichedRecord Image JSON_parse index o).
Qed.

Lemma reduceElements_spec (rest done : list obj) (req collector : list nat) :
  ∃ (rest' : list obj) (req' : list nat) (r : settled (list nat)),
    ByElement.reduceElements Image JSON_parse index
      (seq (length done) (length rest)) (mkState (done ++ rest) req) collector
    = (mkState (done ++ rest') req', r)
    ∧ Forall2 (stage Image JSON_parse index) rest rest'
    ∧ match enrichAll Image JSON_parse index rest with
      | Some enriched =>
          r = Fulfilled (collector ++ seq (length done) (length rest))
          ∧ rest' = enriched
          ∧ req' = req ++ qualifying index (length done) rest
      | None =>
          is_fulfilled r = false
          ∧ ∃ o, o ∈ rest ∧
                 match enrichedRecord Image JSON_parse index o with
                 | Fulfilled _ => False
                 | Rejected e => r = Rejected e
                 | Pending => r = Pending
                 end
      end.
Proof.
  revert done req collector.
  induction rest as [|o rest IH]; intros done req collector.
  { exists [], req, (Fulfilled collector). simpl. by rw !app_nil_r. }
  simpl seq. simpl ByElement.reduceElements.
  assert ((done ++ o :: rest) !! length done = Some o) as Ho.
  { by apply list_lookup_middle. }
  rw (visit_unfold Image JSON_parse index _ _ o) //.
  rw enrichAll_cons.
  destruct (correlatedRecord JSON_parse index o) as [e|c] eqn:Hc.
  { exists (o :: rest), req, (Rejected e). split; [done|].
    split; [apply stage_refl|].
    unfold enrichedRecord at 1. rw Hc. split; [done|].
    exists o. split; [set_solver|]. unfold enrichedRecord. by rw Hc. }
  simpl store. simpl requested.
  assert (<[length done := c]> (done ++ o :: rest) = done ++ c :: rest) as ->.
  { rw -{1}(Nat.add_0_r (length done)). by rw insert_app_r. }
  rw (await_promiseOf Image JSON_parse index _ _ o c) //.
  { by apply list_lookup_middle. }
  pose proof (correlatedRecord_get JSON_parse index o c) as Hget.
  destruct (enrichedRecord Image JSON_parse index o) as [c'|e|] eqn:Hen.
  - assert (<[length done := c']> (done ++ c :: rest) = (done ++ [c']) ++ rest)
      as ->.
    { rw -{1}(Nat.add_0_r (length done)). by rw insert_app_r -assoc. }
    specialize (IH (done ++ [c'])
                  (req ++ (if qualifies index o then [length done] else []))
                  (collector ++ [length done])).
    rw length_app /= Nat.add_1_r in IH.
    destruct IH as (rest' & req' & r & -> & Hstage & Hres).
    exists (c' :: rest'), req', r. rw -assoc /=. split; [done|].
    split; [constructor; [by right; right|done]|].
    destruct (enrichAll Image JSON_parse index rest) as [enriched|].
    + destruct Hres as (-> & -> & ->). by rw -!assoc.
    + destruct Hres as (Hr & o' & Hin & Ho'). split; [done|].
      exists o'. split; [set_solver|done].
  - exists (c :: rest), (req ++ (if qualifies index o then [length done] else [])),
      (Rejected e).
    split; [done|]. split; [constructor; [by right; left|apply stage_refl]|].
    split; [done|]. exists o. split; [set_solver|]. by rw Hen.
  - exists (c :: rest), (req ++ (if qualifies index o then [length done] else [])),
      Pending.
    split; [done|]. split; [constructor; [by right; left|apply stage_refl]|].
    split; [done|]. exists o. split; [set_solver|]. by rw Hen.
Qed.

End Serial.

(** ** All the tags at once *)

Section Settling.
Variable promises : list promise.
Hypothesis Hpositional : positional promises.

Lemma assign_props_empty (o : obj) : assign_props o ∅ = o.
Proof. unfold assign_props. apply (left_id_L ∅ (∪)). Qed.

Lemma assign_props_idemp (o size : obj) :
  assign_props (assign_props o size) size = assign_props o size.
Proof.
  unfold assign_props.
  by rw (assoc_L (∪) size size o) (idemp_L (∪) size).
Qed.

Lemma settle_unfold (g : gathering) (i : nat) (p : promise) :
  promises !! i = Some p →
  settle promises g i =
  match promiseSettles p with
  | Fulfilled size =>
      mkGathering (alter (fun o => assign_props o size) i (objects g))
        (<[i := Some i]> (values g)) (rejection g)
  | Rejected e =>
      mkGathering (objects g) (values g)
        (match rejection g with Some e0 => Some e0 | None => Some e end)
  | Pending => g
  end.
Proof.
  intros Hp. unfold settle. rw Hp. pose proof (Hpositional i p Hp) as Hel.
  destruct p as [element|[size|e|] element]; simpl in *; subst; try done.
  f_equal. apply list_eq. intros j.
  destruct (decide (i = j)) as [->|Hne].
  - rw list_lookup_alter_eq. destruct (objects g !! j); simpl; [|done].
    by rw assign_props_empty.
  - by rw list_lookup_alter_ne.
Qed.

Lemma settled_objects (schedule : list nat) (g : gathering) (j : nat) :
  objects (foldl (settle promises) g schedule) !! j =
  match promiseSettles <$> promises !! j with
  | Some (Fulfilled size) =>
      if bool_decide (j ∈ schedule)
      then (fun o => assign_props o size) <$> objects g !! j
      else objects g !! j
  | _ => objects g !! j
  end.
Proof.
  revert g. induction schedule as [|i schedule IH]; intros g; simpl.
  { by repeat case_match. }
  rw IH. clear IH.
  destruct (promises !! i) as [p|] eqn:Hp.
  - rw (settle_unfold g i p Hp).
    destruct (decide (i = j)) as [->|Hne].
    + rw Hp /=. rw (bool_decide_true (j ∈ j :: schedule)); [set_solver|].
      destruct (promiseSettles p) as [size|e|]; simpl.
      * rw list_lookup_alter_eq. case_bool_decide; [|done].
        destruct (objects g !! j); simpl; [|done].
        by rw assign_props_idemp.
      * done.
      * done.
    + assert (objects
          match promiseSettles p with
          | Fulfilled size =>
              mkGathering (alter (fun o => assign_props o size) i (objects g))
                (<[i := Some i]> (values g)) (rejection g)
          | Rejected e =>
              mkGathering (objects g) (values g)
                (match rejection g with Some e0 => Some e0 | None => Some e end)
          | Pending => g
          end !! j = objects g !! j) as ->.
      { destruct (promiseSettles p); simpl; [|done..].
        by rw list_lookup_alter_ne. }
      destruct (promiseSettles <$> promises !! j) as [[size| |]|]; try done.
      apply (f_equal (fun b : bool => if b then _ else _)).
      apply bool_decide_ext. set_solver.
  - assert (settle promises g i = g) as -> by (unfold settle; by rw Hp).
    destruct (promiseSettles <$> promises !! j) as [[size| |]|] eqn:Hj; try done.
    apply (f_equal (fun b : bool => if b then _ else _)).
    apply bool_decide_ext. split; [set_solver|].
    intros [->|?]%elem_of_cons; [|done]. by rw Hp in Hj.
Qed.

Lemma lookup_insert_same {A} (l : list A) (i : nat) (x : A) :
  <[i := x]> l !! i = (fun _ => x) <$> l !! i.
Proof.
  destruct (l !! i) as [y|] eqn:Hy; simpl.
  - apply list_lookup_insert_eq. by eapply lookup_lt_Some.
  - rw list_insert_ge //. by apply lookup_ge_None.
Qed.

Lemma settled_values (schedule : list nat) (g : gathering) (j : nat) :
  values (foldl (settle promises) g schedule) !! j =
  match promiseSettles <$> promises !! j with
  | Some (Fulfilled _) =>
      if bool_decide (j ∈ schedule)
      then (fun _ => Some j) <$> values g !! j
      else values g !! j
  | _ => values g !! j
  end.
Proof.
  revert g. induction schedule as [|i schedule IH]; intros g; simpl.
  { by repeat case_match. }
  rw IH. clear IH.
  destruct (promises !! i) as [p|] eqn:Hp.
  - rw (settle_unfold g i p Hp).
    destruct (decide (i = j)) as [->|Hne].
    + rw Hp /=. rw (bool_decide_true (j ∈ j :: schedule)); [set_solver|].
      destruct (promiseSettles p) as [size|e|]; simpl; [|done..].
      rw lookup_insert_same. case_bool_decide; [|done].
      by destruct (values g !! j).
    + assert (values
          match promiseSettles p with
          | Fulfilled size =>
              mkGathering (alter (fun o => assign_props o size) i (objects g))
                (<[i := Some i]> (values g)) (rejection g)
          | Rejected e =>
              mkGathering (objects g) (values g)
                (match rejection g with Some e0 => Some e0 | None => Some e end)
          | Pending => g
          end !! j = values g !! j) as ->.
      { destruct (promiseSettles p); simpl; [|done..].
        by rw list_lookup_insert_ne. }
      destruct (promiseSettles <$> promises !! j) as [[size| |]|]; try done.
      apply (f_equal (fun b : bool => if b then _ else _)).
      apply bool_decide_ext. set_solver.
  - assert (settle promises g i = g) as -> by (unfold settle; by rw Hp).
    destruct (promiseSettles <$> promises !! j) as [[size| |]|] eqn:Hj; try done.
    apply (f_equal (fun b : bool => if b then _ else _)).
    apply bool_decide_ext. split; [set_solver|].
    intros [->|?]%elem_of_cons; [|done]. by rw Hp in Hj.
Qed.

Lemma settled_rejection (schedule : list nat) (g : gathering) :
  rejection (foldl (settle promises) g schedule) = None ↔
  rejection g = None ∧
  ∀ i p e, i ∈ schedule → promises !! i = Some p →
           promiseSettles p ≠ Rejected e.
Proof.
  revert g. induction schedule as [|i schedule IH]; intros g; simpl.
  { split; [|by intros [? _]]. intros Hg. split; [done|]. set_solver. }
  rw IH. clear IH.
  destruct (promises !! i) as [p|] eqn:Hp.
  - rw (settle_unfold g i p Hp).
    destruct (promiseSettles p) as [size|e|] eqn:Hs; simpl.
    + split; intros [Hg Hall]; (split; [done|]); intros i' p' e' Hin Hp'.
      * apply elem_of_cons in Hin as [->|Hin]; [|by eapply Hall].
        rw Hp in Hp'. injection Hp' as <-. by rw Hs.
      * eapply Hall; [|done]. set_solver.
    + split.
      * intros [Hg _]. by destruct (rejection g).
      * intros [_ Hall]. exfalso. eapply (Hall i p e); [set_solver|done..].
    + split; intros [Hg Hall]; (split; [done|]); intros i' p' e' Hin Hp'.
      * apply elem_of_cons in Hin as [->|Hin]; [|by eapply Hall].
        rw Hp in Hp'. injection Hp' as <-. by rw Hs.
      * eapply Hall; [|done]. set_solver.
  - assert (settle promises g i = g) as -> by (unfold settle; by rw Hp).
    split; intros [Hg Hall]; (split; [done|]); intros i' p' e' Hin Hp'.
    + apply elem_of_cons in Hin as [->|Hin]; [|by eapply Hall].
      by rw Hp in Hp'.
    + eapply Hall; [|done]. set_solver.
Qed.

Lemma settled_lengths (schedule : list nat) (g : gathering) :
  length (objects (foldl (settle promises) g schedule)) = length (objects g)
  ∧ length (values (foldl (settle promises) g schedule)) = length (values g).
Proof.
  revert g. induction schedule as [|i schedule IH]; intros g; simpl; [done|].
  destruct (IH (settle promises g i)) as [-> ->]. clear IH.
  destruct (promises !! i) as [p|] eqn:Hp.
  - rw (settle_unfold g i p Hp).
    destruct (promiseSettles p); simpl; [|done..].
    by rw length_alter length_insert.
  - unfold settle. by rw Hp.
Qed.

End Settling.

Section Parallel.
Variable Image : string → image_event.
Variable JSON_parse : string → option val.
Variable index : gmap string obj.

Lemma mapTags_spec (rest done : list obj) (req : list nat) :
  ∃ (rest' : list obj) (promises : list promise) (req' : list nat)
    (thrown : option error),
    ByTag.mapTags Image JSON_parse index (seq (length done) (length rest))
      (mkState (done ++ rest) req)
    = (mkState (done ++ rest') req', promises, thrown)
    ∧ length rest' = length rest
    ∧ length promises ≤ length rest
    ∧ (∀ j o, rest !! j = Some o → j < length promises →
         ∃ c, correlatedRecord JSON_parse index o = inr c ∧
              rest' !! j = Some c ∧
              promises !! j = Some (promiseOf Image index o (length done + j)))
    ∧ (∀ j, length promises ≤ j → rest' !! j = rest !! j)
    ∧ req' = req ++ qualifying index (length done) (take (length promises) rest)
    ∧ match thrown with
      | None => length promises = length rest
      | Some e => ∃ o, rest !! length promises = Some o ∧
                       correlatedRecord JSON_parse index o = inl e
      end.
Proof.
  revert done req. induction rest as [|o rest IH]; intros done req.
  { exists [], [], req, None. simpl. rw !app_nil_r. by repeat split. }
  simpl seq. simpl ByTag.mapTags.
  assert ((done ++ o :: rest) !! length done = Some o) as Ho.
  { by apply list_lookup_middle. }
  rw (visit_unfold Image JSON_parse index _ _ o) //.
  destruct (correlatedRecord JSON_parse index o) as [e|c] eqn:Hc.
  { exists (o :: rest), [], req, (Some e). simpl. rw app_nil_r.
    repeat split; try done; try lia. eauto. }
  simpl store. simpl requested.
  assert (<[length done := c]> (done ++ o :: rest) = (done ++ [c]) ++ rest) as ->.
  { rw -{1}(Nat.add_0_r (length done)). by rw insert_app_r -assoc. }
  specialize (IH (done ++ [c])
                (req ++ (if qualifies index o then [length done] else []))).
  rw length_app /= Nat.add_1_r in IH.
  destruct IH as (rest' & promises & req' & thrown & -> & Hlen & Hle & Hlt & Hge
                  & -> & Hthrown).
  exists (c :: rest'), (promiseOf Image index o (length done) :: promises),
    (req ++ (if qualifies index o then [length done] else []) ++
       qualifying index (S (length done)) (take (length promises) rest)),
    thrown.
  rw -!assoc /=. split; [done|]. split; [by rw Hlen|]. split; [lia|].
  split; [|split; [|split; [done|by destruct thrown; [|f_equal]]]].
  - intros [|j] o' Ho' Hj; simpl in *.
    + injection Ho' as <-. exists c. by rw Nat.add_0_r.
    + destruct (Hlt j o' Ho') as (c' & ? & ? & ?); [lia|].
      exists c'. by rw -Nat.add_succ_comm.
  - intros [|j] Hj; simpl in *; [lia|]. apply Hge. lia.
Qed.

Lemma promiseOf_positional (o : obj) (j : nat) :
  promiseElement (promiseOf Image index o j) = j.
Proof. unfold promiseOf. by destruct (qualifies index o). Qed.

Lemma enrichedRecord_settles (o c : obj) (j : nat) :
  correlatedRecord JSON_parse index o = inr c →
  enrichedRecord Image JSON_parse index o =
  match promiseSettles (promiseOf Image index o j) with
  | Fulfilled size => Fulfilled (assign_props c size)
  | Rejected e => Rejected e
  | Pending => Pending
  end.
Proof.
  intros Hc. unfold enrichedRecord, promiseOf. rw Hc.
  destruct (qualifies index o); simpl; [done|].
  by rw assign_props_empty.
Qed.

Lemma enrichAll_lookup (elements enriched : list obj) (j : nat) (o : obj) :
  enrichAll Image JSON_parse index elements = Some enriched →
  elements !! j = Some o →
  ∃ c', enrichedRecord Image JSON_parse index o = Fulfilled c' ∧
        enriched !! j = Some c'.
Proof.
  unfold enrichAll. intros Hall%mapM_Some Hj.
  destruct (Forall2_lookup_l _ _ _ _ _ Hall Hj) as (c' & Hc' & Hen).
  exists c'. split; [|done].
  by destruct (enrichedRecord Image JSON_parse index o); simplify_eq/=.
Qed.

Lemma enrichAll_None (elements : list obj) :
  enrichAll Image JSON_parse index elements = None →
  ∃ j o, elements !! j = Some o ∧
         fulfilment (enrichedRecord Image JSON_parse index o) = None.
Proof.
  unfold enrichAll. intros Hall%mapM_None.
  apply Exists_exists in Hall as (o & Hin & Hnone).
  apply list_elem_of_lookup in Hin as [j Hj]. eauto.
Qed.

Lemma parallel_spec (elements : list obj) (schedule : list nat) :
  schedule ≡ₚ seq 0 (length elements) →
  ∃ (st : state) (promises : list promise) (thrown : option error)
    (objs : list obj) (all : settled (list nat)),
    ByTag.mapTags Image JSON_parse index (seq 0 (length elements))
      (mkState elements []) = (st, promises, thrown)
    ∧ Promise_all promises schedule (store st) = (objs, all)
    ∧ Forall2 (stage Image JSON_parse index) elements objs
    ∧ match enrichAll Image JSON_parse index elements with
      | Some enriched =>
          thrown = None
          ∧ all = Fulfilled (seq 0 (length elements))
          ∧ objs = enriched
          ∧ requested st = qualifying index 0 elements
      | None =>
          is_fulfilled (match thrown with Some e => Rejected e | None => all end)
          = false
          ∧ ((∃ o e, o ∈ elements ∧
                     enrichedRecord Image JSON_parse index o = Rejected e) →
             ∃ e, match thrown with Some e => Rejected e | None => all end
                  = Rejected e)
      end.
Proof.
  intros Hperm.
  destruct (mapTags_spec elements [] [])
    as (rest' & promises & req' & thrown & Hmap & Hlen & Hle & Hlt & Hge
        & -> & Hthrown).
  simpl in Hmap, Hlt.
  assert (positional promises) as Hpos.
  { intros j p Hp.
    assert (j < length promises) as Hj by by eapply lookup_lt_Some.
    destruct (lookup_lt_is_Some_2 elements j) as [o Ho]; [lia|].
    destruct (Hlt j o Ho Hj) as (c & _ & _ & Hp').
    rw Hp in Hp'. injection Hp' as ->. apply promiseOf_positional. }
  set (g0 := mkGathering rest' (replicate (length promises) None) None).
  set (gF := foldl (settle promises) g0 schedule).
  assert (∀ j, j < length elements → j ∈ schedule) as Hsched.
  { intros j Hj. rw Hperm. apply elem_of_seq. lia. }
  destruct (settled_lengths promises Hpos schedule g0) as [HlenO HlenV].
  fold gF in HlenO, HlenV. simpl in HlenO, HlenV.
  (* the objects after the promises have settled *)
  assert (∀ j o, elements !! j = Some o →
            ∃ o', objects gF !! j = Some o' ∧
                  stage Image JSON_parse index o o' ∧
                  (∀ c', j < length promises →
                         enrichedRecord Image JSON_parse index o = Fulfilled c' →
                         o' = c' ∧ values gF !! j = Some (Some j))) as Hobjs.
  { intros j o Ho.
    pose proof (settled_objects promises Hpos schedule g0 j) as Hoj.
    pose proof (settled_values promises Hpos schedule g0 j) as Hvj.
    fold gF in Hoj, Hvj. simpl in Hoj, Hvj.
    assert (j < length elements) as Hjn by by eapply lookup_lt_Some.
    destruct (decide (j < length promises)) as [Hj|Hj].
    - destruct (Hlt j o Ho Hj) as (c & Hc & Hrest' & Hp).
      rw Hp /= in Hoj. rw Hp /= in Hvj. rw Hrest' in Hoj.
      rw lookup_replicate_2 // in Hvj.
      rw (bool_decide_true (j ∈ schedule)) in Hoj; [by apply Hsched|].
      rw (bool_decide_true (j ∈ schedule)) in Hvj; [by apply Hsched|].
      pose proof (enrichedRecord_settles o c j Hc) as Hen.
      destruct (promiseSettles (promiseOf Image index o j)) as [size|e|].
      + exists (assign_props c size). split; [done|].
        split; [by right; right|]. intros c' _ Hc'. split; [congruence|done].
      + exists c. split; [done|]. split; [by right; left|].
        intros c' _ Hc'. congruence.
      + exists c. split; [done|]. split; [by right; left|].
        intros c' _ Hc'. congruence.
    - rw (lookup_ge_None_2 promises j) /= in Hoj; [lia|].
      rw Hge in Hoj; [lia|]. exists o. split; [congruence|].
      split; [by left|]. intros; lia. }
  exists (mkState rest' ([] ++ qualifying index 0 (take (length promises) elements))),
    promises, thrown, (objects gF),
    (match rejection gF with
     | Some e => Rejected e
     | None => match mapM id (values gF) with
               | Some vs => Fulfilled vs
               | None => Pending
               end
     end).
  split; [done|]. split; [done|]. split.
  { apply Forall2_same_length_lookup_2; [lia|].
    intros j o o' Ho Ho'. destruct (Hobjs j o Ho) as (o'' & Ho'' & Hst & _).
    congruence. }
  destruct (enrichAll Image JSON_parse index elements) as [enriched|] eqn:Hall.
  - (* every element has an enriched record *)
    assert (length promises = length elements ∧ thrown = None) as [Hk ->].
    { destruct thrown as [e|]; [|done]. exfalso.
      destruct Hthrown as (o & Ho & Hc).
      destruct (enrichAll_lookup _ _ _ _ Hall Ho) as (c' & Hen & _).
      unfold enrichedRecord in Hen. by rw Hc in Hen. }
    assert (rejection gF = None) as ->.
    { apply (settled_rejection promises Hpos). split; [done|].
      intros i p e Hi Hp Hrej.
      assert (i < length promises) as Hip by by eapply lookup_lt_Some.
      destruct (lookup_lt_is_Some_2 elements i) as [o Ho]; [lia|].
      destruct (Hlt i o Ho Hip) as (c & Hc & _ & Hp').
      rw Hp in Hp'. injection Hp' as ->.
      destruct (enrichAll_lookup _ _ _ _ Hall Ho) as (c' & Hen & _).
      rw (enrichedRecord_settles o c i Hc) Hrej in Hen. done. }
    assert (values gF = Some <$> seq 0 (length elements)) as ->.
    { apply list_eq. intros j. rw list_lookup_fmap.
      destruct (decide (j < length elements)) as [Hj|Hj].
      - destruct (lookup_lt_is_Some_2 elements j) as [o Ho]; [lia|].
        destruct (enrichAll_lookup _ _ _ _ Hall Ho) as (c' & Hen & _).
        destruct (Hobjs j o Ho) as (o' & _ & _ & Hv).
        destruct (Hv c') as [_ ->]; [lia|done|].
        by rw lookup_seq_lt.
      - rw lookup_ge_None_2; [rw HlenV length_replicate; lia|].
        rw lookup_seq_ge //. lia. }
    rw mapM_fmap_Some //. split; [done|]. split; [done|]. split.
    + apply list_eq. intros j.
      destruct (decide (j < length elements)) as [Hj|Hj].
      * destruct (lookup_lt_is_Some_2 elements j) as [o Ho]; [lia|].
        destruct (enrichAll_lookup _ _ _ _ Hall Ho) as (c' & Hen & ->).
        destruct (Hobjs j o Ho) as (o' & -> & _ & Hv).
        destruct (Hv c') as [-> _]; [lia|done|done].
      * rw lookup_ge_None_2; [lia|].
        rw lookup_ge_None_2 //.
        apply length_mapM in Hall. lia.
    + simpl. by rw Hk firstn_all.
  - (* some element has none *)
    destruct (enrichAll_None _ Hall) as (j & o & Ho & Hnone).
    destruct thrown as [e|]; [by eauto|].
    destruct (rejection gF) as [e|] eqn:Hrej; [by eauto|].
    split; [|intros (o1 & e1 & [j1 Ho1]%list_elem_of_lookup & Hen1)].
    2:{ assert (j1 < length promises) as Hj1
          by (apply lookup_lt_Some in Ho1; lia).
        destruct (Hlt j1 o1 Ho1 Hj1) as (c1 & Hc1 & _ & Hp1).
        rw (enrichedRecord_settles o1 c1 j1 Hc1) in Hen1.
        apply (settled_rejection promises Hpos) in Hrej as [_ Hrej].
        exfalso. eapply (Hrej j1 _ e1); [apply Hsched; lia|done|].
        by destruct (promiseSettles (promiseOf Image index o1 j1)); simplify_eq. }
    assert (j < length promises) as Hj by (apply lookup_lt_Some in Ho; lia).
    destruct (Hlt j o Ho Hj) as (c & Hc & _ & Hp).
    pose proof (enrichedRecord_settles o c j Hc) as Hen.
    destruct (promiseSettles (promiseOf Image index o j)) as [size|e|] eqn:Hs.
    + by rw Hen in Hnone.
    + apply (settled_rejection promises Hpos) in Hrej as [_ Hrej].
      exfalso. eapply (Hrej j _ e); [|done..]. apply Hsched. lia.
    + pose proof (settled_values promises Hpos schedule g0 j) as Hvj.
      fold gF in Hvj. rw Hp /= Hs in Hvj. simpl in Hvj.
      rw lookup_replicate_2 // in Hvj.
      destruct (mapM id (values gF)) as [vs|] eqn:Hvs; [|done].
      apply mapM_Some in Hvs.
      by destruct (Forall2_lookup_l _ _ _ _ _ Hvs Hvj) as (? & _ & ?).
Qed.

End Parallel.

(** ** The pass *)

Section Pass.
Variable Image : string → image_event.
Variable JSON_parse : string → option val.

Lemma ByElement_afterPass_spec (networkRecords elements : list obj) :
  let index := ByElement.indexedNetworkRecords networkRecords in
  ∃ (st : state) (r : settled (list nat)),
    ByElement.afterPass Image JSON_parse networkRecords (Fulfilled elements)
    = (st, r)
    ∧ Forall2 (stage Image JSON_parse index) elements (store st)
    ∧ match enrichAll Image JSON_parse index elements with
      | Some enriched =>
          r = Fulfilled (seq 0 (length elements))
          ∧ store st = enriched
          ∧ requested st = qualifying index 0 elements
      | None =>
          is_fulfilled r = false
          ∧ ∃ o, o ∈ elements ∧
                 match enrichedRecord Image JSON_parse index o with
                 | Fulfilled _ => False
                 | Rejected e => r = Rejected e
                 | Pending => r = Pending
                 end
      end.
Proof.
  intros index. unfold ByElement.afterPass. fold index.
  destruct (reduceElements_spec Image JSON_parse index elements [] [] [])
    as (rest' & req' & r & Hrun & Hstage & Hres).
  simpl in Hrun. rw Hrun. by exists (mkState rest' req'), r.
Qed.

Lemma ByTag_afterPass_spec (networkRecords elements : list obj)
    (schedule : list nat) :
  schedule ≡ₚ seq 0 (length elements) →
  let index := ByTag.indexedNetworkRecords networkRecords in
  ∃ (st : state) (r : settled (list nat)),
    ByTag.afterPass Image JSON_parse networkRecords (Fulfilled elements) schedule
    = (st, r)
    ∧ Forall2 (stage Image JSON_parse index) elements (store st)
    ∧ match enrichAll Image JSON_parse index elements with
      | Some enriched =>
          r = Fulfilled (seq 0 (length elements))
          ∧ store st = enriched
          ∧ requested st = qualifying index 0 elements
      | None =>
          is_fulfilled r = false
          ∧ ((∃ o e, o ∈ elements ∧
                     enrichedRecord Image JSON_parse index o = Rejected e) →
             ∃ e, r = Rejected e)
      end.
Proof.
  intros Hperm index. unfold ByTag.afterPass. fold index.
  destruct (parallel_spec Image JSON_parse index elements schedule Hperm)
    as (st & promises & thrown & objs & all & Hmap & Hall & Hstage & Hres).
  rw Hmap Hall.
  exists (mkState objs (requested st)),
    (match thrown with Some e => Rejected e | None => all end).
  split; [done|]. split; [done|].
  destruct (enrichAll Image JSON_parse index elements) as [enriched|]; [|done].
  by destruct Hres as (-> & -> & -> & ->).
Qed.

End Pass.

Section Claims.
Variable Image : string → image_event.
Variable JSON_parse : string → option val.

Lemma enrichAll_Forall (index : gmap string obj) (elements : list obj) :
  Forall (fun o => is_fulfilled (enrichedRecord Image JSON_parse index o) = true)
    elements →
  is_Some (enrichAll Image JSON_parse index elements).
Proof.
  intros Hall. apply mapM_is_Some. eapply Forall_impl; [exact Hall|].
  intros o Ho. simpl in *.
  destruct (enrichedRecord Image JSON_parse index o); simplify_eq/=; eauto.
Qed.

Lemma elem_of_qualifying (index : gmap string obj) (elements : list obj)
    (k i : nat) :
  i ∈ qualifying index k elements ↔
  ∃ o, k ≤ i ∧ elements !! (i - k) = Some o ∧ qualifies index o = true.
Proof.
  revert k. induction elements as [|o elements IH]; intros k; simpl.
  { split; [by intros ?%elem_of_nil|]. by intros (o & _ & ? & _). }
  rw elem_of_app IH. split.
  - intros [Hhd|(o' & Hk & Ho' & Hq)].
    + destruct (qualifies index o) eqn:Hq; [|by apply elem_of_nil in Hhd].
      apply list_elem_of_singleton in Hhd as ->. exists o.
      by rw Nat.sub_diag.
    + exists o'. split; [lia|]. split; [|done].
      by replace (i - k) with (S (i - S k)) by lia.
  - intros (o' & Hk & Ho' & Hq).
    destruct (decide (i = k)) as [->|Hne].
    + left. rw Nat.sub_diag in Ho'. injection Ho' as ->. rw Hq. set_solver.
    + right. exists o'. split; [lia|]. split; [|done].
      by replace (i - k) with (S (i - S k)) in Ho' by lia.
Qed.

Lemma qualifies_spec (index : gmap string obj) (o : obj) :
  qualifies index o = true ↔
  truthy (get o "isPicture") = true ∧ is_Some (index !! ToString (get o "src")).
Proof.
  unfold qualifies. by rw andb_true_iff bool_decide_eq_true.
Qed.

Lemma unmatched_enriched (index : gmap string obj) (o c : obj) :
  correlatedRecord JSON_parse index o = inr c →
  index !! ToString (get o "src") = None →
  qualifies index o = false ∧
  enrichedRecord Image JSON_parse index o = Fulfilled c ∧
  get c "networkRecord" = VUndef.
Proof.
  intros Hc Hnone.
  assert (qualifies index o = false) as Hq.
  { apply not_true_is_false. intros [_ [? ?]]%qualifies_spec. congruence. }
  split; [done|]. unfold enrichedRecord. rw Hc Hq. split; [done|].
  rw (correlatedRecord_networkRecord JSON_parse index o c Hc).
  unfold indexed. by rw Hnone.
Qed.

Lemma emittable_enriched (index : gmap string obj) (elements : list obj) :
  Forall (emittable Image JSON_parse index) elements →
  Forall (fun o => is_fulfilled (enrichedRecord Image JSON_parse index o) = true)
    elements.
Proof.
  intros Hall. eapply Forall_impl; [exact Hall|]. intros o [[c Hc] Hor].
  destruct Hor as [Hnone|Hsize].
  - by destruct (unmatched_enriched index o c Hc Hnone) as (_ & -> & _).
  - unfold enrichedRecord. rw Hc. destruct (qualifies index o); [|done].
    by destruct (sizeOf Image o).
Qed.

Lemma stage_keeps_reported_size (index : gmap string obj) (o o' : obj) :
  stage Image JSON_parse index o o' →
  fulfilment (enrichedRecord Image JSON_parse index o) = None →
  get o' "naturalWidth" = get o "naturalWidth" ∧
  get o' "naturalHeight" = get o "naturalHeight".
Proof.
  intros [->|[Hc|Hen]] Hnone; [done| |by rw Hen in Hnone].
  split; by eapply correlatedRecord_get.
Qed.

Lemma rejected_enriched (index : gmap string obj) (o : obj) (event : val) :
  qualifies index o = true →
  Image (ToString (get o "src")) = ImgError event →
  ∃ e, enrichedRecord Image JSON_parse index o = Rejected e.
Proof.
  intros Hq Himg. unfold enrichedRecord, sizeOf, determineNaturalSize.
  rw Hq Himg. destruct (correlatedRecord JSON_parse index o); eauto.
Qed.

(** What a fulfilled pass leaves, from the characterisation of the pass. *)
Lemma fulfilled_pass (index : gmap string obj) (elements : list obj)
    (st : state) (r : settled (list nat)) (out : list nat) (P : Prop) :
  match enrichAll Image JSON_parse index elements with
  | Some enriched =>
      r = Fulfilled (seq 0 (length elements))
      ∧ store st = enriched
      ∧ requested st = qualifying index 0 elements
  | None => is_fulfilled r = false ∧ P
  end →
  r = Fulfilled out →
  out = seq 0 (length elements)
  ∧ enrichAll Image JSON_parse index elements = Some (store st)
  ∧ requested st = qualifying index 0 elements.
Proof.
  intros Hres ->.
  destruct (enrichAll Image JSON_parse index elements) as [enriched|].
  - destruct Hres as (Hout & -> & ->). by injection Hout as ->.
  - by destruct Hres.
Qed.

Lemma fulfilled_positionsKept (index : gmap string obj) (elements : list obj)
    (st : state) :
  enrichAll Image JSON_parse index elements = Some (store st) →
  positionsKept Image JSON_parse index elements st (seq 0 (length elements)).
Proof.
  intros Hall. split; [by rw length_seq|]. intros i o Ho.
  split; [apply lookup_seq_lt; by eapply lookup_lt_Some|].
  destruct (enrichAll_lookup Image JSON_parse index _ _ _ _ Hall Ho)
    as (c' & Hen & Hc').
  eauto.
Qed.

(** C2: the sequence that a pass returns is as long as the sequence of
    elements it was given, and its element at each position is the element
    received at that position, by now enriched; this holds for the pass
    that awaits all the promises at once, whatever the order in which they
    settle, and for the pass that chains the elements.  The pass returns a
    sequence whenever every element has an enriched record. *)
Theorem enrichment_preserves_positions (networkRecords elements : list obj)
    (schedule : list nat) :
  schedule ≡ₚ seq 0 (length elements) →
  let atOnce :=
    ByTag.afterPass Image JSON_parse networkRecords (Fulfilled elements) schedule in
  let chained :=
    ByElement.afterPass Image JSON_parse networkRecords (Fulfilled elements) in
  let byTag := ByTag.indexedNetworkRecords networkRecords in
  let byElement := ByElement.indexedNetworkRecords networkRecords in
  (∀ out, atOnce.2 = Fulfilled out →
          positionsKept Image JSON_parse byTag elements atOnce.1 out)
  ∧ (∀ out, chained.2 = Fulfilled out →
            positionsKept Image JSON_parse byElement elements chained.1 out)
  ∧ (Forall (fun o =>
               is_fulfilled (enrichedRecord Image JSON_parse byTag o) = true)
       elements →
     is_fulfilled atOnce.2 = true)
  ∧ (Forall (fun o =>
               is_fulfilled (enrichedRecord Image JSON_parse byElement o) = true)
       elements →
     is_fulfilled chained.2 = true).
Proof.
  intros Hperm atOnce chained byTag byElement.
  destruct (ByTag_afterPass_spec Image JSON_parse networkRecords elements
              schedule Hperm) as (st1 & r1 & Hrun1 & _ & Hres1).
  destruct (ByElement_afterPass_spec Image JSON_parse networkRecords elements)
    as (st2 & r2 & Hrun2 & _ & Hres2).
  fold atOnce in Hrun1. fold chained in Hrun2.
  fold byTag in Hres1. fold byElement in Hres2.
  rw Hrun1 Hrun2 /=. split; [|split; [|split]].
  - intros out Hout.
    destruct (fulfilled_pass _ _ _ _ _ _ Hres1 Hout) as (-> & Hall & _).
    by apply fulfilled_positionsKept.
  - intros out Hout.
    destruct (fulfilled_pass _ _ _ _ _ _ Hres2 Hout) as (-> & Hall & _).
    by apply fulfilled_positionsKept.
  - intros [enriched Hall]%enrichAll_Forall. rw Hall in Hres1.
    by destruct Hres1 as (-> & _).
  - intros [enriched Hall]%enrichAll_Forall. rw Hall in Hres2.
    by destruct Hres2 as (-> & _).
Qed.

(** C3: a pass that returns has emitted one record for each element it was
    given, at the position of the element, with the network record stored
    for the source of the element and none for a source without a record,
    the empty one included when no transfer has the empty URL.  The pass
    returns whenever the sources of each element parse and each element is
    unmatched or has an image that loads; and the callback mapped over the
    tags makes one promise per tag unless it throws. *)
Theorem correlation_keeps_every_element (networkRecords elements : list obj)
    (schedule : list nat) :
  schedule ≡ₚ seq 0 (length elements) →
  let atOnce :=
    ByTag.afterPass Image JSON_parse networkRecords (Fulfilled elements) schedule in
  let chained :=
    ByElement.afterPass Image JSON_parse networkRecords (Fulfilled elements) in
  let byTag := ByTag.indexedNetworkRecords networkRecords in
  let byElement := ByElement.indexedNetworkRecords networkRecords in
  (∀ out, atOnce.2 = Fulfilled out →
          everyElementEmitted byTag elements atOnce.1 out)
  ∧ (∀ out, chained.2 = Fulfilled out →
            everyElementEmitted byElement elements chained.1 out)
  ∧ (Forall (emittable Image JSON_parse byTag) elements →
     is_fulfilled atOnce.2 = true)
  ∧ (Forall (emittable Image JSON_parse byElement) elements →
     is_fulfilled chained.2 = true)
  ∧ (∀ st promises,
       ByTag.mapTags Image JSON_parse byTag (seq 0 (length elements))
         (mkState elements []) = (st, promises, None) →
       length promises = length elements ∧ length (store st) = length elements).
Proof.
  intros Hperm atOnce chained byTag byElement.
  destruct (ByTag_afterPass_spec Image JSON_parse networkRecords elements
              schedule Hperm) as (st1 & r1 & Hrun1 & _ & Hres1).
  destruct (ByElement_afterPass_spec Image JSON_parse networkRecords elements)
    as (st2 & r2 & Hrun2 & _ & Hres2).
  fold atOnce in Hrun1. fold chained in Hrun2.
  fold byTag in Hres1. fold byElement in Hres2.
  rw Hrun1 Hrun2 /=.
  assert (∀ index st,
            enrichAll Image JSON_parse index elements = Some (store st) →
            everyElementEmitted index elements st (seq 0 (length elements)))
    as Hemitted.
  { intros index st Hall. split; [by rw length_seq|]. intros i o Ho.
    split; [apply lookup_seq_lt; by eapply lookup_lt_Some|].
    destruct (enrichAll_lookup Image JSON_parse index _ _ _ _ Hall Ho)
      as (c' & Hen & Hc').
    exists c'. split; [done|].
    assert (get c' "networkRecord" = indexed index (get o "src")) as Hnr.
    { unfold enrichedRecord in Hen.
      destruct (correlatedRecord JSON_parse index o) as [e|c] eqn:Hc; [done|].
      pose proof (correlatedRecord_networkRecord JSON_parse index o c Hc) as Hnr.
      destruct (qualifies index o); [|by injection Hen as <-].
      unfold sizeOf, determineNaturalSize in Hen.
      destruct (Image _); [|done..]. injection Hen as <-.
      rw -Hnr. unfold get, assign_props. f_equal. apply lookup_union_r.
      by rw /= !lookup_insert_ne // lookup_empty. }
    split; [done|]. intros Hnone. rw Hnr. unfold indexed. by rw Hnone. }
  split; [|split; [|split; [|split]]].
  - intros out Hout.
    destruct (fulfilled_pass _ _ _ _ _ _ Hres1 Hout) as (-> & Hall & _).
    by apply Hemitted.
  - intros out Hout.
    destruct (fulfilled_pass _ _ _ _ _ _ Hres2 Hout) as (-> & Hall & _).
    by apply Hemitted.
  - intros [enriched Hall]%emittable_enriched%enrichAll_Forall.
    rw Hall in Hres1. by destruct Hres1 as (-> & _).
  - intros [enriched Hall]%emittable_enriched%enrichAll_Forall.
    rw Hall in Hres2. by destruct Hres2 as (-> & _).
  - intros st promises Hmap.
    destruct (mapTags_spec Image JSON_parse byTag elements [] [])
      as (rest' & promises' & req' & thrown & Hmap' & Hlen & _ & _ & _ & _ & Hthrown).
    simpl in Hmap'. rw Hmap' in Hmap. by simplify_eq/=.
Qed.

(** C4: the callback requests the size of an element exactly when the
    element qualifies, that is, when its [isPicture] is truthy and the index
    holds a record for its source; otherwise the promise for the element is
    already resolved with it.  In a pass that returns, the sizes requested
    are those of the qualifying elements, and the object of an element
    without a network record is its correlated record, whatever its
    [isPicture]. *)
Theorem size_requested_iff_grouped_and_matched
    (networkRecords elements : list obj) (schedule : list nat) :
  schedule ≡ₚ seq 0 (length elements) →
  let atOnce :=
    ByTag.afterPass Image JSON_parse networkRecords (Fulfilled elements) schedule in
  let chained :=
    ByElement.afterPass Image JSON_parse networkRecords (Fulfilled elements) in
  let byTag := ByTag.indexedNetworkRecords networkRecords in
  let byElement := ByElement.indexedNetworkRecords networkRecords in
  (∀ index o,
     qualifies index o = true ↔
     truthy (get o "isPicture") = true ∧
     is_Some (index !! ToString (get o "src")))
  ∧ (∀ index st element o c,
       store st !! element = Some o →
       correlatedRecord JSON_parse index o = inr c →
       visit Image JSON_parse index st element =
       (mkState (<[element := c]> (store st))
          (requested st ++ if qualifies index o then [element] else []),
        inr (if qualifies index o
             then ThenAssign (sizeOf Image o) element
             else PromiseResolve element)))
  ∧ (∀ out, atOnce.2 = Fulfilled out →
            requestedWhenQualifying JSON_parse byTag elements atOnce.1)
  ∧ (∀ out, chained.2 = Fulfilled out →
            requestedWhenQualifying JSON_parse byElement elements chained.1).
Proof.
  intros Hperm atOnce chained byTag byElement.
  destruct (ByTag_afterPass_spec Image JSON_parse networkRecords elements
              schedule Hperm) as (st1 & r1 & Hrun1 & _ & Hres1).
  destruct (ByElement_afterPass_spec Image JSON_parse networkRecords elements)
    as (st2 & r2 & Hrun2 & _ & Hres2).
  fold atOnce in Hrun1. fold chained in Hrun2.
  fold byTag in Hres1. fold byElement in Hres2.
  rw Hrun1 Hrun2 /=.
  assert (∀ index st,
            enrichAll Image JSON_parse index elements = Some (store st) →
            requested st = qualifying index 0 elements →
            requestedWhenQualifying JSON_parse index elements st) as Hreq.
  { intros index st Hall Hrequested i o Ho. rw Hrequested. split.
    - rw elem_of_qualifying Nat.sub_0_r. split.
      + intros (o' & _ & Ho' & Hq). congruence.
      + intros Hq. exists o. split; [lia|done].
    - intros Hnone.
      destruct (enrichAll_lookup Image JSON_parse index _ _ _ _ Hall Ho)
        as (c' & Hen & Hc').
      destruct (correlatedRecord JSON_parse index o) as [e|c] eqn:Hc.
      { unfold enrichedRecord in Hen. by rw Hc in Hen. }
      destruct (unmatched_enriched index o c Hc Hnone) as (Hq & Hen' & _).
      split.
      + rw elem_of_qualifying Nat.sub_0_r.
        intros (o' & _ & Ho' & Hq'). congruence.
      + exists c. split; [done|]. congruence. }
  split; [apply qualifies_spec|]. split; [|split].
  - intros index st element o c Ho Hc.
    rw (visit_unfold Image JSON_parse index st element o Ho) Hc.
    unfold promiseOf. by destruct (qualifies index o).
  - intros out Hout.
    destruct (fulfilled_pass _ _ _ _ _ _ Hres1 Hout) as (_ & Hall & Hrequested).
    by apply Hreq.
  - intros out Hout.
    destruct (fulfilled_pass _ _ _ _ _ _ Hres2 Hout) as (_ & Hall & Hrequested).
    by apply Hreq.
Qed.

(** C1, amended: when the size request of a qualifying element is rejected,
    the pass does not return a sequence.  The pass that awaits all the
    promises at once is rejected; the pass that chains the elements is not
    fulfilled, and is rejected unless the enriched record of some element
    stays pending.  In the store, the object of the element keeps the natural
    size that was reported for it. *)
Theorem rejection_fails_the_pass (networkRecords elements : list obj)
    (schedule : list nat) :
  schedule ≡ₚ seq 0 (length elements) →
  let atOnce :=
    ByTag.afterPass Image JSON_parse networkRecords (Fulfilled elements) schedule in
  let chained :=
    ByElement.afterPass Image JSON_parse networkRecords (Fulfilled elements) in
  let byTag := ByTag.indexedNetworkRecords networkRecords in
  let byElement := ByElement.indexedNetworkRecords networkRecords in
  (∀ i o event,
     elements !! i = Some o →
     qualifies byTag o = true →
     Image (ToString (get o "src")) = ImgError event →
     (∃ e, atOnce.2 = Rejected e) ∧ reportedSizeKept atOnce.1 i o)
  ∧ (∀ i o event,
       elements !! i = Some o →
       qualifies byElement o = true →
       Image (ToString (get o "src")) = ImgError event →
       is_fulfilled chained.2 = false
       ∧ (Forall (fun o' =>
                    enrichedRecord Image JSON_parse byElement o' ≠ Pending)
            elements →
          ∃ e, chained.2 = Rejected e)
       ∧ reportedSizeKept chained.1 i o).
Proof.
  intros Hperm atOnce chained byTag byElement.
  destruct (ByTag_afterPass_spec Image JSON_parse networkRecords elements
              schedule Hperm) as (st1 & r1 & Hrun1 & Hstage1 & Hres1).
  destruct (ByElement_afterPass_spec Image JSON_parse networkRecords elements)
    as (st2 & r2 & Hrun2 & Hstage2 & Hres2).
  fold atOnce in Hrun1. fold chained in Hrun2.
  fold byTag in Hres1, Hstage1. fold byElement in Hres2, Hstage2.
  rw Hrun1 Hrun2 /=.
  assert (∀ index st i o e,
            Forall2 (stage Image JSON_parse index) elements (store st) →
            elements !! i = Some o →
            enrichedRecord Image JSON_parse index o = Rejected e →
            reportedSizeKept st i o) as Hkept.
  { intros index st i o e Hstage Ho Hen.
    destruct (Forall2_lookup_l _ _ _ _ _ Hstage Ho) as (o' & Ho' & Hst).
    exists o'. split; [done|].
    eapply stage_keeps_reported_size; [done|]. by rw Hen. }
  split.
  - intros i o event Ho Hq Himg.
    destruct (rejected_enriched byTag o event Hq Himg) as [e Hen].
    split; [|by eapply Hkept].
    destruct (enrichAll Image JSON_parse byTag elements) as [enriched|] eqn:Hall.
    + destruct (enrichAll_lookup Image JSON_parse byTag _ _ _ _ Hall Ho)
        as (c' & Hen' & _). congruence.
    + destruct Hres1 as [_ Hrej]. apply Hrej. exists o, e.
      split; [by eapply list_elem_of_lookup_2|done].
  - intros i o event Ho Hq Himg.
    destruct (rejected_enriched byElement o event Hq Himg) as [e Hen].
    destruct (enrichAll Image JSON_parse byElement elements) as [enriched|] eqn:Hall.
    { destruct (enrichAll_lookup Image JSON_parse byElement _ _ _ _ Hall Ho)
        as (c' & Hen' & _). congruence. }
    destruct Hres2 as (Hr & o' & Hin & Ho').
    split; [done|]. split; [|by eapply Hkept].
    intros Hpending.
    apply (proj1 (Forall_forall _ _)) with (x := o') in Hpending; [|done].
    destruct (enrichedRecord Image JSON_parse byElement o'); [done|eauto|done].
Qed.

End Claims.

(** C1, as stated, fails in both revisions: for one grouped image whose
    transfer was captured and whose image cannot be loaded again, the pass
    is rejected instead of returning the element. *)
Lemma rejection_not_contained :
  ¬ rejectionContained failingImage
      (ByElement.indexedNetworkRecords [pngTransfer]) [pictureElement]
      (ByElement.afterPass failingImage parseSources [pngTransfer]
         (Fulfilled [pictureElement]))
  ∧ ¬ rejectionContained failingImage
        (ByTag.indexedNetworkRecords [pngTransfer]) [pictureElement]
        (ByTag.afterPass failingImage parseSources [pngTransfer]
           (Fulfilled [pictureElement]) [0]).
Proof.
  split; intros Hcontained.
  - destruct (Hcontained 0 pictureElement
                (ImageError (VObj {[ "type" := VStr "error" ]})))
      as (out & o' & Hout & _); [done|by vm_compute|done|].
    vm_compute in Hout. discriminate.
  - destruct (Hcontained 0 pictureElement
                (ImageError (VObj {[ "type" := VStr "error" ]})))
      as (out & o' & Hout & _); [done|by vm_compute|done|].
    vm_compute in Hout. discriminate.
Qed.

(** C3, as stated for every input, fails in both revisions: for an image
    without a transfer followed by a grouped image whose transfer was
    captured and whose image cannot be loaded again, the pass is rejected
    and emits no element, the unmatched one included. *)
Lemma unmatched_element_not_emitted :
  ¬ correlationTotal (ByElement.indexedNetworkRecords [pngTransfer])
      [plainElement; pictureElement]
      (ByElement.afterPass failingImage parseSources [pngTransfer]
         (Fulfilled [plainElement; pictureElement]))
  ∧ ¬ correlationTotal (ByTag.indexedNetworkRecords [pngTransfer])
        [plainElement; pictureElement]
        (ByTag.afterPass failingImage parseSources [pngTransfer]
           (Fulfilled [plainElement; pictureElement]) [0; 1])
  ∧ ByElement.indexedNetworkRecords [pngTransfer]
      !! ToString (get plainElement "src") = None
  ∧ ByTag.indexedNetworkRecords [pngTransfer]
      !! ToString (get plainElement "src") = None.
Proof.
  split; [|split; [|split]].
  - intros (out & Hout & _). vm_compute in Hout. discriminate.
  - intros (out & Hout & _). vm_compute in Hout. discriminate.
  - vm_compute. reflexivity.
  - vm_compute. reflexivity.
Qed.

(** ** Scenarios of the specification *)

(** A grouped image with a captured transfer and a reported size of 0 by 0,
    whose image loads 100 by 50. *)
Example scenario_resolved_size :
  let result :=
    ByElement.afterPass loadingImage parseSources [pngTransfer]
      (Fulfilled [pictureElement]) in
  result.2 = Fulfilled [0]
  ∧ requested result.1 = [0]
  ∧ (fun o => (get o "naturalWidth", get o "naturalHeight", get o "sources"))
      <$> store result.1 !! 0
    = Some (VNum 100, VNum 50, VArr []).
Proof. vm_compute. by repeat split. Qed.

(** An image outside of any [picture], without a matching transfer. *)
Example scenario_unmatched :
  let result :=
    ByElement.afterPass loadingImage parseSources [pngTransfer]
      (Fulfilled [plainElement]) in
  result.2 = Fulfilled [0]
  ∧ requested result.1 = []
  ∧ (fun o => (get o "networkRecord", get o "naturalWidth"))
      <$> store result.1 !! 0
    = Some (VUndef, VNum 40).
Proof. vm_compute. by repeat split. Qed.

(** Two transfers of the same URL with different sizes. *)
Example scenario_last_transfer_wins :
  (fun entry => get entry "resourceSize") <$>
    ByElement.indexedNetworkRecords
      [pngTransfer; <["resourceSize" := VNum 2048]> pngTransfer]
    !! "http://x/a.png"
  = Some (VNum 2048).
Proof. vm_compute. reflexivity. Qed.

(** Three elements, of which the second settles last. *)
Example scenario_slow_middle :
  (ByTag.afterPass loadingImage parseSources [pngTransfer]
     (Fulfilled [plainElement; pictureElement; plainElement]) [0; 2; 1]).2
  = Fulfilled [0; 1; 2].
Proof. vm_compute. reflexivity. Qed.

(** A grouped image with a captured transfer, whose image fails to load. *)
Example scenario_rejected_size :
  (ByElement.afterPass failingImage parseSources [pngTransfer]
     (Fulfilled [pictureElement])).2
  = Rejected (ImageError (VObj {[ "type" := VStr "error" ]}))
  ∧ (ByTag.afterPass failingImage parseSources [pngTransfer]
       (Fulfilled [pictureElement]) [0]).2
    = Rejected (ImageError (VObj {[ "type" := VStr "error" ]})).
Proof. vm_compute. by split. Qed.

(** A transfer that is not an image leaves the index empty. *)
Example scenario_not_an_image :
  ByTag.indexedNetworkRecords
    [<["_mimeType" := VStr "text/html"]> pngTransfer] = ∅.
Proof. vm_compute. reflexivity. Qed.

(** ** The theorems at sample inputs *)

Lemma size_assigned_in_place_witness :
  store (mkState [plainElement; pictureElement] []) !! 1 = Some pictureElement
  ∧ loadingImage (ToString (get pictureElement "src")) = ImgLoad 100 50
  ∧ ∃ (p : promise) (o' : obj),
      fetchElementWithSizeInformation loadingImage
        (mkState [plainElement; pictureElement] []) 1 =
        (mkState [plainElement; pictureElement] [1], inr p)
      ∧ ByTag.fetchTagWithSizeInformation loadingImage
          (mkState [plainElement; pictureElement] []) 1 =
          (mkState [plainElement; pictureElement] [1], inr p)
      ∧ await p [plainElement; pictureElement] =
          (<[1 := o']> [plainElement; pictureElement], Fulfilled 1)
      ∧ get o' "naturalWidth" = VNum 100
      ∧ get o' "naturalHeight" = VNum 50
      ∧ (∀ k, k ≠ "naturalWidth" → k ≠ "naturalHeight" →
              o' !! k = pictureElement !! k)
      ∧ (∀ j, j ≠ 1 →
              <[1 := o']> [plainElement; pictureElement] !! j =
              [plainElement; pictureElement] !! j).
Proof.
  split; [reflexivity|]. split; [reflexivity|].
  apply (size_assigned_in_place loadingImage
           (mkState [plainElement; pictureElement] []) 1 pictureElement 100 50);
    reflexivity.
Defined.

Lemma picture_sources_end_with_image_witness :
  sampleDocument !! 0 = Some (mkImg pictureImg (Some samplePicture))
  ∧ parentTagName samplePicture = "PICTURE"
  ∧ matchingSources wideScreen samplePicture = [wideSource; bareSource]
  ∧ ∀ records,
      ByElement.collectImageElementInfo besideDocument wideScreen sketch
        sampleDocument = inr records →
      ∃ record, records !! 0 = Some record ∧
        describedAsPicture sketch record
          ((ByElement.getElementInfo besideDocument <$>
              matchingSources wideScreen samplePicture) ++
           [ByElement.getElementInfo besideDocument pictureImg]).
Proof.
  split; [reflexivity|]. split; [reflexivity|]. split; [reflexivity|].
  apply (picture_sources_end_with_image besideDocument wideScreen sketch
           sampleDocument 0 (mkImg pictureImg (Some samplePicture)) samplePicture);
    reflexivity.
Defined.

Lemma enrichment_preserves_positions_witness :
  [1; 0] ≡ₚ seq 0 (length [pictureElement; plainElement])
  ∧ is_fulfilled
      (ByTag.afterPass loadingImage parseSources [pngTransfer]
         (Fulfilled [pictureElement; plainElement]) [1; 0]).2 = true
  ∧ positionsKept loadingImage parseSources
      (ByElement.indexedNetworkRecords [pngTransfer])
      [pictureElement; plainElement]
      (ByElement.afterPass loadingImage parseSources [pngTransfer]
         (Fulfilled [pictureElement; plainElement])).1
      [0; 1].
Proof.
  assert ([1; 0] ≡ₚ seq 0 (length [pictureElement; plainElement])) as Hperm
    by apply perm_swap.
  split; [exact Hperm|].
  destruct (enrichment_preserves_positions loadingImage parseSources
              [pngTransfer] [pictureElement; plainElement] [1; 0] Hperm)
    as (_ & Hchained & HatOnce & _).
  split.
  - apply HatOnce. repeat constructor.
  - apply Hchained. vm_compute. reflexivity.
Defined.

Lemma correlation_keeps_every_element_witness :
  [1; 0] ≡ₚ seq 0 (length [pictureElement; plainElement])
  ∧ everyElementEmitted (ByTag.indexedNetworkRecords [pngTransfer])
      [pictureElement; plainElement]
      (ByTag.afterPass loadingImage parseSources [pngTransfer]
         (Fulfilled [pictureElement; plainElement]) [1; 0]).1
      [0; 1]
  ∧ everyElementEmitted (ByElement.indexedNetworkRecords [pngTransfer])
      [pictureElement; plainElement]
      (ByElement.afterPass loadingImage parseSources [pngTransfer]
         (Fulfilled [pictureElement; plainElement])).1
      [0; 1].
Proof.
  assert ([1; 0] ≡ₚ seq 0 (length [pictureElement; plainElement])) as Hperm
    by apply perm_swap.
  split; [exact Hperm|].
  destruct (correlation_keeps_every_element loadingImage parseSources
              [pngTransfer] [pictureElement; plainElement] [1; 0] Hperm)
    as (HatOnce & Hchained & _).
  split.
  - apply HatOnce. vm_compute. reflexivity.
  - apply Hchained. vm_compute. reflexivity.
Defined.

Lemma size_requested_iff_grouped_and_matched_witness :
  [1; 0] ≡ₚ seq 0 (length [pictureElement; plainElement])
  ∧ requestedWhenQualifying parseSources
      (ByTag.indexedNetworkRecords [pngTransfer])
      [pictureElement; plainElement]
      (ByTag.afterPass loadingImage parseSources [pngTransfer]
         (Fulfilled [pictureElement; plainElement]) [1; 0]).1
  ∧ requestedWhenQualifying parseSources
      (ByElement.indexedNetworkRecords [pngTransfer])
      [pictureElement; plainElement]
      (ByElement.afterPass loadingImage parseSources [pngTransfer]
         (Fulfilled [pictureElement; plainElement])).1.
Proof.
  assert ([1; 0] ≡ₚ seq 0 (length [pictureElement; plainElement])) as Hperm
    by apply perm_swap.
  split; [exact Hperm|].
  destruct (size_requested_iff_grouped_and_matched loadingImage parseSources
              [pngTransfer] [pictureElement; plainElement] [1; 0] Hperm)
    as (_ & _ & HatOnce & Hchained).
  split.
  - apply (HatOnce [0; 1]). vm_compute. reflexivity.
  - apply (Hchained [0; 1]). vm_compute. reflexivity.
Defined.

Lemma rejection_fails_the_pass_witness :
  [1; 0] ≡ₚ seq 0 (length [pictureElement; plainElement])
  ∧ ((∃ e, (ByTag.afterPass failingImage parseSources [pngTransfer]
              (Fulfilled [pictureElement; plainElement]) [1; 0]).2 = Rejected e)
     ∧ reportedSizeKept
         (ByTag.afterPass failingImage parseSources [pngTransfer]
            (Fulfilled [pictureElement; plainElement]) [1; 0]).1
         0 pictureElement)
  ∧ is_fulfilled
      (ByElement.afterPass failingImage parseSources [pngTransfer]
         (Fulfilled [pictureElement; plainElement])).2 = false.
Proof.
  assert ([1; 0] ≡ₚ seq 0 (length [pictureElement; plainElement])) as Hperm
    by apply perm_swap.
  split; [exact Hperm|].
  destruct (rejection_fails_the_pass failingImage parseSources
              [pngTransfer] [pictureElement; plainElement] [1; 0] Hperm)
    as (HatOnce & Hchained).
  split.
  - apply (HatOnce 0 pictureElement (VObj {[ "type" := VStr "error" ]}));
      [reflexivity|vm_compute; reflexivity|reflexivity].
  - apply (Hchained 0 pictureElement (VObj {[ "type" := VStr "error" ]}));
      [reflexivity|vm_compute; reflexivity|reflexivity].
Defined.

(** * Further properties *)

(** ** The table formatter *)

(** The assertions of [createTable() produces formatted rows/cols]. *)
Example createTable_test :
  (fun table => (get table "headings", get table "rows")) <$>
    match Table.createTable testHeadings testResults with
    | inr table => Some table
    | inl _ => None
    end
  = Some (VArr [VStr "URL"; VStr "Line/col"; VStr "Snippet"],
          VArr [VObj {[ "cols" :=
                  VArr [VStr "http://example.com"; VStr "123:456";
                        VStr "`code snippet`"] ]}]).
Proof. vm_compute. reflexivity. Qed.

(** The assertions of [handles invalid input]. *)
Example pretty_test :
  Table.pretty VUndef = inr ""
  ∧ Table.pretty VNull = inr ""
  ∧ Table.pretty (VObj ∅) = inr ""
  ∧ Table.pretty (VObj {[ "results" := VStr "blah" ]}) = inr "".
Proof. vm_compute. by repeat split. Qed.

Lemma string_app_cons (x : ascii) (a b : string) :
  String x a +:+ b = String x (a +:+ b).
Proof. reflexivity. Qed.

Lemma string_app_assoc (a b c : string) : (a +:+ b) +:+ c = a +:+ (b +:+ c).
Proof. induction a as [|x a IH]; [done|]. by rw !string_app_cons IH. Qed.

Lemma string_app_nil_r (a : string) : a +:+ "" = a.
Proof. induction a as [|x a IH]; [done|]. by rw string_app_cons IH. Qed.

Lemma forEach_prettyCol (cols : list val) (output : string) :
  Table.forEachThrowing Table.prettyCol output cols =
  if forallb isString cols
  then inr (output +:+ foldr (fun col line => shownCol col +:+ line) "" cols)
  else inl TypeError.
Proof.
  revert output. induction cols as [|col cols IH]; intros output; simpl.
  { by rw string_app_nil_r. }
  destruct col as [| | | |s| |]; simpl; try done.
  destruct (Table.startsWithTick s && Table.endsWithTick s); simpl.
  - apply IH.
  - rw IH. destruct (forallb isString cols); [|done].
    by rw !string_app_assoc.
Qed.

Lemma prettyRow_printable (row : val) (output : string) :
  Table.prettyRow output row =
  if printableRow row then inr (output +:+ printedRow row) else inl TypeError.
Proof.
  unfold Table.prettyRow, printableRow, printedRow.
  destruct row as [| | | | | |o]; simpl; try done.
  destruct (get o "cols") as [| | | | |cols|]; simpl; try done.
  rw forEach_prettyCol. destruct (forallb isString cols); [|done].
  by rw !string_app_assoc.
Qed.

Lemma forEach_prettyRow (rows : list val) (output : string) :
  Table.forEachThrowing Table.prettyRow output rows =
  if forallb printableRow rows
  then inr (output +:+ printedRows rows)
  else inl TypeError.
Proof.
  revert output. induction rows as [|row rows IH]; intros output; simpl.
  { by rw string_app_nil_r. }
  rw prettyRow_printable. destruct (printableRow row); simpl; [|done].
  rw IH. destruct (forallb printableRow rows); [|done].
  by rw string_app_assoc.
Qed.

(** X1: [pretty] returns the empty string for a value that is falsy, has no
    table, or has a table whose [headings] or [rows] is not an array.  For a
    table it prints one line per row, made of six spaces, each column that is
    not between backticks followed by a space, and a line feed; it throws a
    [TypeError] exactly when some row is not an object whose [cols] is an
    array of strings. *)
Theorem pretty_prints_rows_or_throws (result : val) :
  (truthy result = false ∨
   truthy (Table.prop result "table") = false ∨
   Table.isArray (Table.prop (Table.prop result "table") "headings") = false ∨
   Table.isArray (Table.prop (Table.prop result "table") "rows") = false →
   Table.pretty result = inr "")
  ∧ ∀ rows, tableOf result rows →
      Table.pretty result =
      if forallb printableRow rows then inr (printedRows rows)
      else inl TypeError.
Proof.
  unfold Table.pretty. split.
  - intros Hguard.
    destruct (truthy result) eqn:Hresult; simpl; [|done].
    destruct (truthy (Table.prop result "table")) eqn:Htable; simpl; [|done].
    destruct (Table.isArray (Table.prop (Table.prop result "table") "headings"))
      eqn:Hheadings; simpl; [|done].
    destruct (Table.isArray (Table.prop (Table.prop result "table") "rows"))
      eqn:Hrows; simpl; [|done].
    destruct Hguard as [?|[?|[?|?]]]; congruence.
  - intros rows (-> & -> & -> & Hrows). rw Hrows /=.
    by rw forEach_prettyRow.
Qed.

Lemma mapThrowing_length {A B} (f : A → error + B) (l : list A) (ys : list B) :
  mapThrowing f l = inr ys → length ys = length l.
Proof.
  revert ys. induction l as [|a l IH]; intros ys Hmap; simpl in *.
  { by injection Hmap as <-. }
  destruct (f a) as [e|y]; [done|].
  destruct (mapThrowing f l) as [e|ys']; [done|].
  injection Hmap as <-. simpl. by rw (IH ys').
Qed.

Lemma mapThrowing_inl {A B} (f : A → error + B) (l : list A) (e : error) :
  mapThrowing f l = inl e → ∃ x, x ∈ l ∧ f x = inl e.
Proof.
  induction l as [|a l IH]; intros Hmap; simpl in *; [done|].
  destruct (f a) as [e'|y] eqn:Hfa.
  - injection Hmap as ->. exists a. split; [set_solver|done].
  - destruct (mapThrowing f l) as [e'|ys']; [|done].
    injection Hmap as ->. destruct IH as (x & Hin & Hx); [done|].
    exists x. split; [set_solver|done].
Qed.

Lemma mapThrowing_inr {A B} (f : A → error + B) (l : list A) :
  Forall (fun x => ∃ y, f x = inr y) l ↔ ∃ ys, mapThrowing f l = inr ys.
Proof.
  split; [apply mapThrowing_total|]. intros [ys Hmap].
  apply Forall_lookup. intros i x Hx.
  destruct (mapThrowing_lookup f l ys i x Hmap Hx) as (y & Hy & _). eauto.
Qed.

Lemma cell_throws (result : obj) (key : string) (e : error) :
  Table.cell result key = inl e ↔
  e = TypeError ∧ key = "code" ∧ hasCode result = false.
Proof.
  unfold Table.cell, hasCode.
  destruct (String.eqb key "code") eqn:Hcode.
  - apply String.eqb_eq in Hcode as ->.
    destruct (get result "code"); simpl;
      (split; [intros He|intros (He & _ & Hs)]); by simplify_eq.
  - apply String.eqb_neq in Hcode.
    destruct (String.eqb key "lineCol"); split; try done; by intros (_ & ? & _).
Qed.

Lemma tableRow_throws (keys : list string) (result : obj) (e : error) :
  Table.tableRow keys result = inl e →
  e = TypeError ∧ "code" ∈ keys ∧ hasCode result = false.
Proof.
  unfold Table.tableRow. intros Hrow.
  destruct (mapThrowing (Table.cell result) keys) as [e'|cols] eqn:Hcols; [|done].
  injection Hrow as ->.
  apply mapThrowing_inl in Hcols as (key & Hin & Hcell).
  apply cell_throws in Hcell as (-> & -> & Hcode). done.
Qed.

(** X2: [createTable] throws a [TypeError] exactly when [code] is among the
    headings and the [code] of some result is not a string; otherwise it
    returns a table. *)
Theorem createTable_throws_on_missing_code (headings : list (string * val))
    (results : list obj) :
  match Table.createTable headings results with
  | inl e =>
      e = TypeError ∧ "code" ∈ headings.*1 ∧
      Exists (fun result => hasCode result = false) results
  | inr _ =>
      "code" ∉ headings.*1 ∨ Forall (fun result => hasCode result = true) results
  end.
Proof.
  unfold Table.createTable.
  destruct (mapThrowing (Table.tableRow headings.*1) results) as [e|rows] eqn:Hrows.
  - apply mapThrowing_inl in Hrows as (result & Hin & Hrow).
    apply tableRow_throws in Hrow as (-> & Hcode & Hresult).
    split; [done|]. split; [done|]. apply Exists_exists. eauto.
  - destruct (decide ("code" ∈ headings.*1)) as [Hin|Hnotin]; [|by left].
    right. apply Forall_forall. intros result Hresult.
    apply list_elem_of_lookup in Hresult as [i Hi].
    destruct (mapThrowing_lookup _ _ _ _ _ Hrows Hi) as (row & Hrow & _).
    destruct (hasCode result) eqn:Hcode; [done|].
    exfalso.
    assert (∃ e, Table.cell result "code" = inl e) as [e He].
    { exists TypeError. by apply cell_throws. }
    unfold Table.tableRow in Hrow.
    destruct (mapThrowing (Table.cell result) headings.*1) as [e'|cols] eqn:Hcols;
      [done|].
    apply list_elem_of_lookup in Hin as [j Hj].
    destruct (mapThrowing_lookup _ _ _ _ _ Hcols Hj) as (v & Hv & _).
    congruence.
Qed.


Lemma cell_value (result : obj) (key : string) (v : val) :
  Table.cell result key = inr v → v = cellValue result key.
Proof.
  unfold Table.cell, cellValue.
  destruct (String.eqb key "code") eqn:Hcode.
  - apply String.eqb_eq in Hcode as ->.
    destruct (get result "code"); simpl; intros; by simplify_eq.
  - destruct (String.eqb key "lineCol"); intros; by simplify_eq.
Qed.


Lemma endsWithTick_snoc (s : string) :
  Table.endsWithTick (s +:+ String Table.backtick "") = true.
Proof.
  induction s as [|c s IH]; [done|].
  rw string_app_cons. simpl.
  destruct (s +:+ String Table.backtick "") eqn:Hs; [|done].
  by destruct s.
Qed.

Lemma code_cell_hidden (result : obj) :
  isString (cellValue result "code") = true ∧
  shownCol (cellValue result "code") = "".
Proof.
  unfold cellValue. simpl. split; [done|].
  pose proof (endsWithTick_snoc (trim (ToString (get result "code")))) as Hends.
  destruct (trim (ToString (get result "code")) +:+ String Table.backtick "");
    [done|].
  by rw Hends.
Qed.

Lemma mapThrowing_cells (result : obj) (keys : list string) (cols : list val) :
  mapThrowing (Table.cell result) keys = inr cols →
  cols = cellValue result <$> keys.
Proof.
  intros Hcols. apply list_eq. intros j. rw list_lookup_fmap.
  destruct (keys !! j) as [key|] eqn:Hj; simpl.
  - destruct (mapThrowing_lookup _ _ _ _ _ Hcols Hj) as (v & Hv & ->).
    by rw (cell_value _ _ _ Hv).
  - apply lookup_ge_None. rw (mapThrowing_length _ _ _ Hcols).
    by apply lookup_ge_None.
Qed.

Lemma printedKeys_filter (headings : list (string * val)) :
  printedKeys headings =
  List.filter (fun key => negb (String.eqb key "code")) headings.*1.
Proof.
  unfold printedKeys, withoutCode.
  induction headings as [|[k v] headings IH]; [done|]. simpl.
  destruct (String.eqb k "code"); simpl; [done|]. by f_equal.
Qed.

Lemma cells_printed (result : obj) (keys : list string) :
  forallb isString (cellValue result <$> keys) =
    forallb (fun key => isString (cellValue result key))
      (List.filter (fun key => negb (String.eqb key "code")) keys)
  ∧ foldr (fun col line => shownCol col +:+ line) "" (cellValue result <$> keys) =
    foldr (fun key line => shownCol (cellValue result key) +:+ line) ""
      (List.filter (fun key => negb (String.eqb key "code")) keys).
Proof.
  destruct (code_cell_hidden result) as [Hstr Hshown].
  induction keys as [|key keys [IH1 IH2]]; [done|].
  rw fmap_cons. simpl.
  destruct (String.eqb key "code") eqn:Hcode; simpl.
  - apply String.eqb_eq in Hcode as ->. by rw Hstr Hshown IH1 IH2.
  - by rw IH1 IH2.
Qed.

Lemma row_printed (headings : list (string * val)) (result : obj) (row : val) :
  Table.tableRow headings.*1 result = inr row →
  printableRow row = printableResult headings result
  ∧ printedRow row = lineOf headings result.
Proof.
  unfold Table.tableRow. intros Hrow.
  destruct (mapThrowing (Table.cell result) headings.*1) as [e|cols] eqn:Hcols;
    [done|].
  injection Hrow as <-. apply mapThrowing_cells in Hcols as ->.
  unfold printableRow, printedRow, printableResult, lineOf, Table.prop, get.
  rw lookup_singleton_eq /= printedKeys_filter.
  destruct (cells_printed result headings.*1) as [-> ->]. done.
Qed.

(** X4: [pretty] applied to a table made by [createTable] prints one line
    per result with the columns of the headings other than [code]: the
    snippets of code are never printed.  It throws a [TypeError] exactly
    when such a column of some result is not a string. *)
Theorem pretty_of_created_table (headings : list (string * val))
    (results : list obj) (table : obj) :
  Table.createTable headings results = inr table →
  Table.pretty (VObj {[ "table" := VObj table ]}) =
  if forallb (printableResult headings) results
  then inr (foldr (fun result text => lineOf headings result +:+ text) ""
              results)
  else inl TypeError.
Proof.
  unfold Table.createTable.
  destruct (mapThrowing (Table.tableRow headings.*1) results) as [e|rows] eqn:Hrows;
    [done|].
  intros [= <-]. unfold Table.pretty, Table.prop, get.
  rw lookup_singleton_eq /=. rw lookup_insert_eq /=.
  rw lookup_insert_ne // lookup_insert_eq /=.
  rw forEach_prettyRow.
  revert rows Hrows. induction results as [|result results IH]; intros rows Hrows.
  { simpl in Hrows. by injection Hrows as <-. }
  simpl in Hrows.
  destruct (Table.tableRow headings.*1 result) as [e|row] eqn:Hrow; [done|].
  destruct (mapThrowing (Table.tableRow headings.*1) results) as [e|rows'];
    [done|].
  injection Hrows as <-. simpl.
  destruct (row_printed headings result row Hrow) as [-> ->].
  specialize (IH rows' eq_refl).
  destruct (printableResult headings result); simpl; [|done].
  destruct (forallb printableRow rows'), (forallb (printableResult headings) results);
    try done.
  injection IH as IH. change ("" +:+ printedRows rows') with (printedRows rows') in IH.
  by rw -IH.
Qed.

(** ** Candidate URLs, further *)

Lemma occurrences_app (c : ascii) (a b : string) :
  occurrences c (a +:+ b) = occurrences c a + occurrences c b.
Proof.
  induction a as [|x a IH]; [done|].
  rw string_app_cons /= IH. lia.
Qed.

Lemma split_without (sep : ascii) (a : string) :
  occurrences sep a = 0 → split sep a = [a].
Proof.
  induction a as [|x a IH]; simpl; [done|].
  destruct (Ascii.eqb x sep); [done|]. intros Ha. by rw IH.
Qed.

Lemma split_app_sep (sep : ascii) (a b : string) :
  occurrences sep a = 0 → split sep (a +:+ String sep b) = a :: split sep b.
Proof.
  induction a as [|x a IH]; intros Ha.
  - simpl. by rw Ascii.eqb_refl.
  - rw string_app_cons. simpl in *.
    destruct (Ascii.eqb x sep); [done|]. by rw IH.
Qed.

Lemma split_pieces (sep c : ascii) (s w : string) :
  w ∈ split sep s → occurrences sep w = 0 ∧ occurrences c w ≤ occurrences c s.
Proof.
  revert w. induction s as [|x s IH]; intros w; simpl.
  { intros ->%list_elem_of_singleton. done. }
  destruct (Ascii.eqb x sep) eqn:Hx.
  - intros [->|Hw]%elem_of_cons; [simpl; split; [done|lia]|].
    destruct (IH w Hw). split; [done|lia].
  - destruct (split sep s) as [|w0 ws] eqn:Hsplit.
    { by apply split_nonempty in Hsplit. }
    intros [->|Hw]%elem_of_cons.
    + destruct (IH w0) as [H0 Hle]; [set_solver|].
      simpl. rw Hx H0. split; [done|]. lia.
    + destruct (IH w) as [H0 Hle]; [set_solver|]. split; [done|lia].
Qed.

Lemma trimStart_occurrences (c : ascii) (s : string) :
  occurrences c (trimStart s) ≤ occurrences c s.
Proof.
  induction s as [|x s IH]; simpl; [done|].
  destruct (isWhiteSpace x); simpl; lia.
Qed.

Lemma trimEnd_occurrences (c : ascii) (s : string) :
  occurrences c (trimEnd s) ≤ occurrences c s.
Proof.
  induction s as [|x s IH]; simpl; [done|].
  destruct (trimEnd s) as [|y t]; simpl in *.
  - destruct (isWhiteSpace x); simpl; lia.
  - lia.
Qed.

(** X5: each candidate that [parseSrcsetUrls] takes out of a [srcset],
    before it is resolved, holds neither a comma nor a space: the
    descriptor that follows the first space of an entry is dropped. *)
Theorem relativeUrls_without_comma_or_space (srcset url : string) :
  url ∈ relativeUrls srcset →
  occurrences "," url = 0 ∧ occurrences " " url = 0.
Proof.
  unfold relativeUrls. intros Hurl.
  apply (proj1 (list_elem_of_In _ _)) in Hurl.
  apply in_map_iff in Hurl as (entry & <- & Hentry).
  apply (proj2 (list_elem_of_In _ _)) in Hentry.
  destruct (split_pieces "," "," srcset entry Hentry) as [Hcomma _].
  destruct (split " " (trim entry)) as [|w ws] eqn:Hsplit.
  { by apply split_nonempty in Hsplit. }
  simpl.
  destruct (split_pieces " " "," (trim entry) w) as [Hspace Hle];
    [rw Hsplit; set_solver|].
  split; [|done].
  pose proof (trimEnd_occurrences "," (trimStart entry)).
  pose proof (trimStart_occurrences "," entry).
  unfold trim in Hle. lia.
Qed.

Lemma allChars_occurrences (p : ascii → bool) (c : ascii) (s : string) :
  allChars p s = true → p c = false → occurrences c s = 0.
Proof.
  intros Hall Hc. induction s as [|x s IH]; simpl in *; [done|].
  apply andb_prop in Hall as [Hx Hs]. rw IH //.
  destruct (Ascii.eqb x c) eqn:Hxc; [|done].
  apply Ascii.eqb_eq in Hxc as ->. congruence.
Qed.

Lemma trimEnd_app_plain (u t : string) :
  allChars (fun c => negb (isWhiteSpace c) && negb (Ascii.eqb c ",")) u = true →
  trimEnd (u +:+ t) = u +:+ trimEnd t.
Proof.
  intros Hu. induction u as [|x u IH]; [done|].
  simpl in Hu. apply andb_prop in Hu as [Hx Hu].
  apply andb_prop in Hx as [Hx _]. apply negb_true_iff in Hx.
  rw !string_app_cons /= IH // Hx. by destruct (u +:+ trimEnd t).
Qed.

Lemma candidateUrl_plain (u d : string) (leading : bool) :
  plainUrl u = true →
  candidateUrl ((if leading then " " else "") +:+ u +:+ " " +:+ d) = u.
Proof.
  unfold plainUrl, candidateUrl, trim.
  intros [Hne Hu]%andb_prop. apply negb_true_iff, String.eqb_neq in Hne.
  assert (trimStart ((if leading then " " else "") +:+ u +:+ " " +:+ d)
          = u +:+ " " +:+ d) as ->.
  { assert (trimStart (u +:+ " " +:+ d) = u +:+ " " +:+ d) as Hstart.
    { destruct u as [|x u]; [done|]. simpl in Hu.
      apply andb_prop in Hu as [Hx _]. apply andb_prop in Hx as [Hx _].
      apply negb_true_iff in Hx. by rw string_app_cons /= Hx. }
    by destruct leading. }
  rw (trimEnd_app_plain u) //.
  assert (occurrences " " u = 0) as Hspace
    by by eapply allChars_occurrences.
  destruct (trimEnd (" " +:+ d)) as [|y t] eqn:Hend.
  - by rw string_app_nil_r split_without.
  - assert (y = " "%char) as ->.
    { change (" " +:+ d) with (String " " d) in Hend. simpl in Hend.
      destruct (trimEnd d); simpl in Hend; by simplify_eq. }
    by rw split_app_sep.
Qed.

Lemma split_joined (entries : list string) :
  Forall (fun entry => occurrences "," entry = 0) entries →
  split "," (String.concat ", " entries) =
  match entries with
  | [] => [""]
  | entry :: rest => entry :: (String.append " " <$> rest)
  end.
Proof.
  induction 1 as [|entry rest Hentry Hrest IH]; [done|].
  destruct rest as [|entry' rest].
  { simpl. by rw split_without. }
  change (String.concat ", " (entry :: entry' :: rest))
    with (entry +:+ String "," (" " +:+ String.concat ", " (entry' :: rest))).
  rw split_app_sep //. f_equal.
  change (" " +:+ String.concat ", " (entry' :: rest))
    with (String " " (String.concat ", " (entry' :: rest))).
  simpl split.
  rw IH. done.
Qed.

(** X6: a [srcset] that declares URLs with their descriptors, separated by
    a comma and a space, is parsed back into the normalisations of these
    URLs, in order, in both revisions; the URLs are not empty and hold
    neither white space nor a comma, and the descriptors hold no comma. *)
Theorem parseSrcsetUrls_of_declared (resolveURL : string → option string)
    (candidates : list (string * string)) :
  Forall (fun c => plainUrl c.1 = true ∧ occurrences "," c.2 = 0) candidates →
  ByElement.parseSrcsetUrls resolveURL (srcsetOf candidates) =
    normalized resolveURL <$> candidates.*1
  ∧ ByTag.parseSrcsetUrls resolveURL (srcsetOf candidates) =
    normalized resolveURL <$> candidates.*1.
Proof.
  intros Hcandidates.
  assert (relativeUrls (srcsetOf candidates) =
          match candidates with [] => [""] | _ => candidates.*1 end) as Hrel.
  { unfold relativeUrls, srcsetOf. rw split_joined.
    { apply Forall_forall. intros entry Hentry.
      apply (proj1 (list_elem_of_In _ _)) in Hentry.
      apply in_map_iff in Hentry as ([u d] & <- & Hin).
      apply (proj2 (list_elem_of_In _ _)) in Hin.
      apply (proj1 (Forall_forall _ _) Hcandidates) in Hin as [Hu Hd].
      simpl in *. rw !occurrences_app Hd /=.
      apply andb_prop in Hu as [_ Hu].
      by rw (allChars_occurrences _ "," _ Hu). }
    destruct Hcandidates as [|[u d] rest [Hu Hd] Hrest]; [done|]. simpl.
    f_equal; [apply (candidateUrl_plain u d false Hu)|].
    induction Hrest as [|[u' d'] rest' [Hu' Hd'] Hrest' IH]; [done|]. simpl.
    f_equal; [apply (candidateUrl_plain u' d' true Hu')|done]. }
  assert (String.eqb (srcsetOf candidates) "" =
          match candidates with [] => true | _ => false end) as Hempty.
  { destruct Hcandidates as [|[u d] rest [Hu Hd] Hrest]; [done|].
    apply andb_prop in Hu as [Hne _].
    apply negb_true_iff, String.eqb_neq in Hne.
    apply String.eqb_neq. unfold srcsetOf. simpl.
    destruct u as [|x u]; [done|]. by destruct (List.map _ rest). }
  unfold ByElement.parseSrcsetUrls, ByTag.parseSrcsetUrls.
  rw Hempty Hrel. by destruct candidates.
Qed.

(** ** The page script, further *)

Lemma describeImage_throws (matchMedia : string → bool)
    (JSON_stringify : val → string) (info : Element → obj) (node : ImgNode)
    (e : error) :
  describeImage matchMedia JSON_stringify info node = inl e ↔
  e = TypeError ∧ parentElement node = None.
Proof.
  unfold describeImage. destruct (parentElement node) as [parent|].
  - split; [by case_match|by intros [_ ?]].
  - split; [by intros [= <-]|by intros [-> _]].
Qed.

Lemma mapThrowing_describes (matchMedia : string → bool)
    (JSON_stringify : val → string) (info : Element → obj)
    (document : list ImgNode) :
  describesEveryImage document
    (mapThrowing (describeImage matchMedia JSON_stringify info) document).
Proof.
  unfold describesEveryImage.
  destruct (mapThrowing _ document) as [e|records] eqn:Hmap.
  - apply mapThrowing_inl in Hmap as (node & Hin & Hnode).
    apply describeImage_throws in Hnode as [-> Hnode]. split; [done|].
    apply Exists_exists. eauto.
  - split; [by eapply mapThrowing_length|].
    apply Forall_lookup. intros i node Hi.
    destruct (mapThrowing_lookup _ _ _ _ _ Hmap Hi) as (record & Hrecord & _).
    destruct (parentElement node) as [parent|] eqn:Hparent; [by eexists|].
    assert (describeImage matchMedia JSON_stringify info node = inl TypeError)
      as Hthrows by by apply describeImage_throws.
    congruence.
Qed.

(** X7: the page script returns one description per image of the document,
    and then each image has a parent element; otherwise it throws a
    [TypeError], and some image of the document has no parent element.
    This holds in both revisions. *)
Theorem page_script_returns_or_throws (resolveURL : string → option string)
    (matchMedia : string → bool) (JSON_stringify : val → string)
    (document : list ImgNode) :
  describesEveryImage document
    (ByElement.collectImageElementInfo resolveURL matchMedia JSON_stringify
       document)
  ∧ describesEveryImage document
      (ByTag.collectImageTagInfo resolveURL matchMedia JSON_stringify document).
Proof. split; apply mapThrowing_describes. Qed.

Lemma parseSrcsetUrls_declared (resolveURL : string → option string)
    (srcset : string) :
  ByElement.parseSrcsetUrls resolveURL srcset = declaredUrls resolveURL srcset
  ∧ ByTag.parseSrcsetUrls resolveURL srcset = declaredUrls resolveURL srcset.
Proof.
  unfold ByElement.parseSrcsetUrls, ByTag.parseSrcsetUrls, declaredUrls,
    relativeUrls.
  destruct (String.eqb srcset ""); [done|].
  by rw !List.map_map.
Qed.

Lemma describeImage_plain (resolveURL : string → option string)
    (matchMedia : string → bool) (JSON_stringify : val → string)
    (node : ImgNode) (parent : ParentElement) :
  parentElement node = Some parent →
  parentTagName parent ≠ "PICTURE" →
  ∃ record,
    describeImage matchMedia JSON_stringify
      (fun element =>
         elementInfo (declaredUrls resolveURL (srcset element)) element) node
    = inr record
    ∧ describedAsPlain resolveURL (img node) record.
Proof.
  intros Hparent Htag%String.eqb_neq. unfold describeImage.
  rw Hparent Htag /=. eexists. split; [done|].
  unfold describedAsPlain, assign_props, elementInfo.
  repeat split; vm_compute; reflexivity.
Qed.

(** X8: for an image whose parent is not a [picture], the description at
    its position holds the [tagName], [currentSrc] (as [src]), [srcset],
    [sizes], [media], [clientWidth], [clientHeight], [naturalWidth] and
    [naturalHeight] of the image, the normalised URLs that its [srcset]
    declares (as [srcsetUrls]), and an [isPicture] that is [false]; it
    holds nothing else, and so no [sources].  This holds in both
    revisions. *)
Theorem plain_image_description (resolveURL : string → option string)
    (matchMedia : string → bool) (JSON_stringify : val → string)
    (document : list ImgNode) (i : nat) (node : ImgNode) (parent : ParentElement) :
  document !! i = Some node →
  parentElement node = Some parent →
  parentTagName parent ≠ "PICTURE" →
  (∀ records,
     ByElement.collectImageElementInfo resolveURL matchMedia JSON_stringify
       document = inr records →
     ∃ record, records !! i = Some record ∧
       describedAsPlain resolveURL (img node) record)
  ∧ (∀ records,
       ByTag.collectImageTagInfo resolveURL matchMedia JSON_stringify
         document = inr records →
       ∃ record, records !! i = Some record ∧
         describedAsPlain resolveURL (img node) record).
Proof.
  intros Hnode Hparent Htag.
  destruct (describeImage_plain resolveURL matchMedia JSON_stringify node
              parent Hparent Htag) as (record' & Hd' & Hplain).
  apply String.eqb_neq in Htag.
  split; intros records Hrecords.
  - destruct (mapThrowing_lookup _ _ _ _ _ Hrecords Hnode) as (record & Hd & Hi).
    exists record. split; [done|].
    unfold describeImage, ByElement.getElementInfo in Hd, Hd'.
    rw Hparent Htag /= in Hd. rw Hparent Htag /= in Hd'.
    rw (proj1 (parseSrcsetUrls_declared resolveURL (srcset (img node)))) in Hd.
    congruence.
  - destruct (mapThrowing_lookup _ _ _ _ _ Hrecords Hnode) as (record & Hd & Hi).
    exists record. split; [done|].
    unfold describeImage, ByTag.toObject in Hd, Hd'.
    rw Hparent Htag /= in Hd. rw Hparent Htag /= in Hd'.
    rw (proj2 (parseSrcsetUrls_declared resolveURL (srcset (img node)))) in Hd.
    congruence.
Qed.

(** ** Passes that request no size *)

Section Unrequested.
Variables Image Image' : string → image_event.
Variable JSON_parse : string → option val.
Variable index : gmap string obj.

Lemma visit_without_image (st : state) (element : nat) (o : obj) :
  store st !! element = Some o →
  qualifies index o = false →
  visit Image JSON_parse index st element
  = visit Image' JSON_parse index st element
  ∧ requested (visit Image JSON_parse index st element).1 = requested st.
Proof.
  intros Ho Hq. rw !(visit_unfold _ JSON_parse index st element o) //.
  unfold promiseOf. rw Hq.
  destruct (correlatedRecord JSON_parse index o); [done|]. simpl.
  by rw app_nil_r.
Qed.

Lemma reduceElements_without_image (rest done : list obj)
    (req collector : list nat) :
  Forall (fun o => qualifies index o = false) rest →
  ByElement.reduceElements Image JSON_parse index
    (seq (length done) (length rest)) (mkState (done ++ rest) req) collector
  = ByElement.reduceElements Image' JSON_parse index
      (seq (length done) (length rest)) (mkState (done ++ rest) req) collector
  ∧ requested
      (ByElement.reduceElements Image JSON_parse index
         (seq (length done) (length rest)) (mkState (done ++ rest) req)
         collector).1 = req.
Proof.
  intros Hrest. revert done req collector.
  induction Hrest as [|o rest Hq _ IH]; intros done req collector.
  { by split. }
  simpl seq. simpl ByElement.reduceElements.
  assert ((done ++ o :: rest) !! length done = Some o) as Ho.
  { by apply list_lookup_middle. }
  rw !(visit_unfold _ JSON_parse index _ _ o) //.
  unfold promiseOf. rw Hq app_nil_r.
  destruct (correlatedRecord JSON_parse index o) as [e|c]; [done|]. simpl.
  assert (<[length done := c]> (done ++ o :: rest) = (done ++ [c]) ++ rest) as ->.
  { rw -{1}(Nat.add_0_r (length done)). by rw insert_app_r -assoc. }
  specialize (IH (done ++ [c]) req (collector ++ [length done])).
  by rw length_app /= Nat.add_1_r in IH.
Qed.

Lemma mapTags_without_image (rest done : list obj) (req : list nat) :
  Forall (fun o => qualifies index o = false) rest →
  ByTag.mapTags Image JSON_parse index (seq (length done) (length rest))
    (mkState (done ++ rest) req)
  = ByTag.mapTags Image' JSON_parse index (seq (length done) (length rest))
      (mkState (done ++ rest) req)
  ∧ requested
      (ByTag.mapTags Image JSON_parse index (seq (length done) (length rest))
         (mkState (done ++ rest) req)).1.1 = req.
Proof.
  intros Hrest. revert done req.
  induction Hrest as [|o rest Hq _ IH]; intros done req.
  { by split. }
  simpl seq. simpl ByTag.mapTags.
  assert ((done ++ o :: rest) !! length done = Some o) as Ho.
  { by apply list_lookup_middle. }
  rw !(visit_unfold _ JSON_parse index _ _ o) //.
  unfold promiseOf. rw Hq app_nil_r.
  destruct (correlatedRecord JSON_parse index o) as [e|c]; [done|]. simpl.
  assert (<[length done := c]> (done ++ o :: rest) = (done ++ [c]) ++ rest) as ->.
  { rw -{1}(Nat.add_0_r (length done)). by rw insert_app_r -assoc. }
  specialize (IH (done ++ [c]) req).
  rw length_app /= Nat.add_1_r in IH. destruct IH as [<- Hreq].
  destruct (ByTag.mapTags Image JSON_parse index _ _) as [[st promises] thrown].
  done.
Qed.

End Unrequested.

Lemma passes_without_image (Image Image' : string → image_event)
    (JSON_parse : string → option val) (networkRecords elements : list obj)
    (schedule : list nat) :
  (Forall (fun o => qualifies (ByTag.indexedNetworkRecords networkRecords) o
                    = false) elements →
   ByTag.afterPass Image JSON_parse networkRecords (Fulfilled elements) schedule
   = ByTag.afterPass Image' JSON_parse networkRecords (Fulfilled elements)
       schedule
   ∧ requested
       (ByTag.afterPass Image JSON_parse networkRecords (Fulfilled elements)
          schedule).1 = [])
  ∧ (Forall (fun o => qualifies (ByElement.indexedNetworkRecords networkRecords) o
                      = false) elements →
     ByElement.afterPass Image JSON_parse networkRecords (Fulfilled elements)
     = ByElement.afterPass Image' JSON_parse networkRecords (Fulfilled elements)
     ∧ requested
         (ByElement.afterPass Image JSON_parse networkRecords
            (Fulfilled elements)).1 = []).
Proof.
  split; intros Hnone.
  - unfold ByTag.afterPass.
    destruct (mapTags_without_image Image Image' JSON_parse _ elements [] []
                Hnone) as [Hmap Hreq].
    simpl in Hmap, Hreq. rw -Hmap.
    destruct (ByTag.mapTags Image JSON_parse _ _ _) as [[st promises] thrown].
    split; [done|]. simpl in *.
    by destruct (Promise_all promises schedule (store st)).
  - unfold ByElement.afterPass.
    by destruct (reduceElements_without_image Image Image' JSON_parse _ elements
                   [] [] [] Hnone).
Qed.

(** X9: when no element qualifies, each of them lacking a truthy [isPicture]
    or a network record for its source, a pass requests no size and never
    loads an image: its outcome and its store are the same whatever the
    page does with images.  This holds in both revisions; for the pass that
    awaits all the promises, in any order of settlement. *)
Theorem no_request_when_nothing_qualifies (Image Image' : string → image_event)
    (JSON_parse : string → option val) (networkRecords elements : list obj)
    (schedule : list nat) :
  (Forall (fun o => qualifies (ByTag.indexedNetworkRecords networkRecords) o
                    = false) elements →
   ByTag.afterPass Image JSON_parse networkRecords (Fulfilled elements) schedule
   = ByTag.afterPass Image' JSON_parse networkRecords (Fulfilled elements)
       schedule
   ∧ requested
       (ByTag.afterPass Image JSON_parse networkRecords (Fulfilled elements)
          schedule).1 = [])
  ∧ (Forall (fun o => qualifies (ByElement.indexedNetworkRecords networkRecords) o
                      = false) elements →
     ByElement.afterPass Image JSON_parse networkRecords (Fulfilled elements)
     = ByElement.afterPass Image' JSON_parse networkRecords (Fulfilled elements)
     ∧ requested
         (ByElement.afterPass Image JSON_parse networkRecords
            (Fulfilled elements)).1 = []).
Proof. apply passes_without_image. Qed.

Lemma filter_none {A} (f : A → bool) (l : list A) :
  Forall (fun x => f x = false) l → List.filter f l = [].
Proof. induction 1 as [|x l Hx _ IH]; simpl; [done|]. by rw Hx. Qed.

(** X10: when no transfer of the capture is image-typed, the index is empty
    in both revisions: no element qualifies, so that a pass requests no size
    and does not depend on what the page does with images, and each
    correlated record has no network record. *)
Theorem capture_without_images (networkRecords : list obj) :
  Forall (fun record => isImage record = false) networkRecords →
  ByTag.indexedNetworkRecords networkRecords = ∅
  ∧ ByElement.indexedNetworkRecords networkRecords = ∅
  ∧ ∀ (Image Image' : string → image_event) (JSON_parse : string → option val)
      (elements : list obj) (schedule : list nat),
      (ByTag.afterPass Image JSON_parse networkRecords (Fulfilled elements)
         schedule
       = ByTag.afterPass Image' JSON_parse networkRecords (Fulfilled elements)
           schedule
       ∧ requested
           (ByTag.afterPass Image JSON_parse networkRecords (Fulfilled elements)
              schedule).1 = [])
      ∧ (ByElement.afterPass Image JSON_parse networkRecords (Fulfilled elements)
         = ByElement.afterPass Image' JSON_parse networkRecords
             (Fulfilled elements)
         ∧ requested
             (ByElement.afterPass Image JSON_parse networkRecords
                (Fulfilled elements)).1 = [])
      ∧ ∀ o c,
          correlatedRecord JSON_parse
            (ByElement.indexedNetworkRecords networkRecords) o = inr c →
          get c "networkRecord" = VUndef.
Proof.
  intros Hnone.
  assert (ByTag.indexedNetworkRecords networkRecords = ∅) as HbyTag.
  { change (ByTag.indexedNetworkRecords networkRecords)
      with (foldl (indexStep (fun r => ByTag.pick r ByTag.pickedKeys)) ∅
              networkRecords).
    by rw index_filter_from filter_none. }
  assert (ByElement.indexedNetworkRecords networkRecords = ∅) as HbyElement.
  { change (ByElement.indexedNetworkRecords networkRecords)
      with (foldl (indexStep ByElement.networkRecordOf) ∅ networkRecords).
    by rw index_filter_from filter_none. }
  split; [done|]. split; [done|].
  intros Image Image' JSON_parse elements schedule.
  assert (∀ o : obj, qualifies ∅ o = false) as Hq.
  { intros o. unfold qualifies. rw lookup_empty.
    rw bool_decide_eq_false_2; [by intros [? ?]|]. apply andb_false_r. }
  destruct (passes_without_image Image Image' JSON_parse networkRecords
              elements schedule) as [HatOnce Hchained].
  split; [apply HatOnce; rw HbyTag; by apply Forall_forall|].
  split; [apply Hchained; rw HbyElement; by apply Forall_forall|].
  intros o c Hc. rw (correlatedRecord_networkRecord _ _ _ _ Hc) HbyElement.
  unfold indexed. by rw lookup_empty.
Qed.

(** ** What a pass leaves in the store *)

Section Frame.
Variable Image : string → image_event.
Variable JSON_parse : string → option val.
Variable index : gmap string obj.


Lemma enrichedRecord_cases (o c' : obj) :
  enrichedRecord Image JSON_parse index o = Fulfilled c' →
  ∃ c, correlatedRecord JSON_parse index o = inr c ∧
    ((qualifies index o = false ∧ c' = c)
     ∨ (qualifies index o = true ∧
        ∃ w h, Image (ToString (get o "src")) = ImgLoad w h ∧
               c' = assign_props c
                      (list_to_map [("naturalWidth", VNum w);
                                    ("naturalHeight", VNum h)]))).
Proof.
  unfold enrichedRecord, sizeOf, determineNaturalSize.
  destruct (correlatedRecord JSON_parse index o) as [e|c]; [done|].
  intros Hen. exists c. split; [done|].
  destruct (qualifies index o); [|left; by simplify_eq].
  right. split; [done|].
  destruct (Image (ToString (get o "src"))) as [w h| |]; [|done..].
  exists w, h. by simplify_eq.
Qed.



End Frame.


(** ** The two revisions, side by side *)

Section Agreement.
Variable Image : string → image_event.
Variable JSON_parse : string → option val.
Variables index1 index2 : gmap string obj.
Hypothesis Hkeys : ∀ key, is_Some (index1 !! key) ↔ is_Some (index2 !! key).

Lemma qualifies_agree (o : obj) : qualifies index1 o = qualifies index2 o.
Proof. unfold qualifies. f_equal. apply bool_decide_ext, Hkeys. Qed.

Lemma qualifying_agree (elements : list obj) (k : nat) :
  qualifying index1 k elements = qualifying index2 k elements.
Proof.
  revert k. induction elements as [|o elements IH]; intros k; simpl; [done|].
  by rw qualifies_agree IH.
Qed.

Lemma enrichedRecord_agree (o : obj) :
  match enrichedRecord Image JSON_parse index1 o,
        enrichedRecord Image JSON_parse index2 o with
  | Fulfilled c1, Fulfilled c2 => ∀ k, k ≠ "networkRecord" → c1 !! k = c2 !! k
  | Rejected e1, Rejected e2 => e1 = e2
  | Pending, Pending => True
  | _, _ => False
  end.
Proof.
  unfold enrichedRecord, correlatedRecord. rw qualifies_agree.
  destruct (rehydrate JSON_parse o) as [e|o1]; [done|].
  destruct (qualifies index2 o).
  - destruct (sizeOf Image o) as [size|e|]; [|done..].
    intros k Hk. unfold assign_props, link.
    destruct (size !! k) as [v|] eqn:Hv.
    + by rw !(lookup_union_Some_l _ _ _ _ Hv).
    + by rw !lookup_union_r // !lookup_insert_ne.
  - intros k Hk. unfold link. by rw !lookup_insert_ne.
Qed.

Lemma enrichAll_agree (elements : list obj) :
  match enrichAll Image JSON_parse index1 elements,
        enrichAll Image JSON_parse index2 elements with
  | Some enriched1, Some enriched2 =>
      Forall2 (fun c1 c2 : obj => ∀ k, k ≠ "networkRecord" → c1 !! k = c2 !! k)
        enriched1 enriched2
  | None, None => True
  | _, _ => False
  end.
Proof.
  induction elements as [|o elements IH]; [by constructor|].
  rw !enrichAll_cons. pose proof (enrichedRecord_agree o) as Ho.
  destruct (enrichedRecord Image JSON_parse index1 o) as [c1|e1|],
    (enrichedRecord Image JSON_parse index2 o) as [c2|e2|]; try done.
  destruct (enrichAll Image JSON_parse index1 elements) as [enriched1|],
    (enrichAll Image JSON_parse index2 elements) as [enriched2|]; try done.
  simpl. by constructor.
Qed.

End Agreement.

Lemma revisions_keys (networkRecords : list obj) (key : string) :
  is_Some (ByTag.indexedNetworkRecords networkRecords !! key) ↔
  is_Some (ByElement.indexedNetworkRecords networkRecords !! key).
Proof.
  destruct (revisions_lookup networkRecords key) as [-> ->].
  by rw !fmap_is_Some.
Qed.

(** X12: the pass that awaits all the promises, in any order of settlement,
    returns exactly when the pass that chains the elements does, and then
    both return the same sequence, have requested the same sizes, and hold
    objects that agree on every property other than [networkRecord]. *)
Theorem revisions_return_alike (Image : string → image_event)
    (JSON_parse : string → option val) (networkRecords elements : list obj)
    (schedule : list nat) :
  schedule ≡ₚ seq 0 (length elements) →
  let atOnce :=
    ByTag.afterPass Image JSON_parse networkRecords (Fulfilled elements) schedule in
  let chained :=
    ByElement.afterPass Image JSON_parse networkRecords (Fulfilled elements) in
  is_fulfilled atOnce.2 = is_fulfilled chained.2
  ∧ (is_fulfilled chained.2 = true →
     atOnce.2 = chained.2
     ∧ requested atOnce.1 = requested chained.1
     ∧ Forall2 (fun o1 o2 : obj => ∀ k, k ≠ "networkRecord" → o1 !! k = o2 !! k)
         (store atOnce.1) (store chained.1)).
Proof.
  intros Hperm atOnce chained.
  destruct (ByTag_afterPass_spec Image JSON_parse networkRecords elements
              schedule Hperm) as (st1 & r1 & Hrun1 & _ & Hres1).
  destruct (ByElement_afterPass_spec Image JSON_parse networkRecords elements)
    as (st2 & r2 & Hrun2 & _ & Hres2).
  fold atOnce in Hrun1. fold chained in Hrun2. rw Hrun1 Hrun2 /=.
  pose proof (enrichAll_agree Image JSON_parse _ _
                (revisions_keys networkRecords) elements) as Hagree.
  destruct (enrichAll Image JSON_parse
              (ByTag.indexedNetworkRecords networkRecords) elements)
    as [enriched1|],
    (enrichAll Image JSON_parse
       (ByElement.indexedNetworkRecords networkRecords) elements)
    as [enriched2|]; try done.
  - destruct Hres1 as (-> & -> & ->), Hres2 as (-> & -> & ->).
    split; [done|]. intros _. split; [done|]. split; [|done].
    apply qualifying_agree, revisions_keys.
  - destruct Hres1 as [-> _], Hres2 as [-> _]. split; [done|]. done.
Qed.

(** ** Where a chained pass stops *)

Section Stopping.
Variable Image : string → image_event.
Variable JSON_parse : string → option val.
Variable index : gmap string obj.

Lemma reduceElements_stops (rest : list obj) :
  ∀ (done : list obj) (req collector : list nat) (st : state)
    (r : settled (list nat)),
    ByElement.reduceElements Image JSON_parse index
      (seq (length done) (length rest)) (mkState (done ++ rest) req) collector
    = (st, r) →
    is_fulfilled r = false →
    ∃ j,
      (∃ o, rest !! j = Some o ∧
            match enrichedRecord Image JSON_parse index o with
            | Fulfilled _ => False
            | Rejected e => r = Rejected e
            | Pending => r = Pending
            end)
      ∧ (∀ i o, i < j → rest !! i = Some o →
           ∃ c', enrichedRecord Image JSON_parse index o = Fulfilled c' ∧
                 store st !! (length done + i) = Some c')
      ∧ (∀ i, j < i → store st !! (length done + i) = rest !! i)
      ∧ (∀ i, i < length done → store st !! i = done !! i)
      ∧ (∀ i, i ∈ requested st →
              i ∈ req ∨ (length done ≤ i ∧ i ≤ length done + j)).
Proof.
  induction rest as [|o rest IH]; intros done req collector st r Hrun Hr.
  { simpl in Hrun. by simplify_eq. }
  simpl seq in Hrun. simpl ByElement.reduceElements in Hrun.
  assert ((done ++ o :: rest) !! length done = Some o) as Ho.
  { by apply list_lookup_middle. }
  rw (visit_unfold Image JSON_parse index _ _ o) // in Hrun.
  assert (∀ (x : obj) i, 0 < i →
            (done ++ x :: rest) !! (length done + i) = (o :: rest) !! i)
    as Hlater.
  { intros x [|i] Hi; [lia|]. rw lookup_app_r; [lia|].
    by replace (length done + S i - length done) with (S i) by lia. }
  assert (∀ (x : obj) i, i < length done →
            (done ++ x :: rest) !! i = done !! i) as Hdone.
  { intros x i Hi. by rw lookup_app_l. }
  destruct (correlatedRecord JSON_parse index o) as [e|c] eqn:Hc.
  { injection Hrun as <- <-. exists 0. split; [|split; [|split; [|split]]]; simpl.
    - exists o. split; [done|]. unfold enrichedRecord. by rw Hc.
    - intros; lia.
    - by apply Hlater.
    - by apply Hdone.
    - intros i Hi. by left. }
  simpl store in Hrun. simpl requested in Hrun.
  assert (<[length done := c]> (done ++ o :: rest) = done ++ c :: rest) as Hins.
  { rw -{1}(Nat.add_0_r (length done)). by rw insert_app_r. }
  rw Hins in Hrun.
  rw (await_promiseOf Image JSON_parse index _ _ o c) // in Hrun.
  { by apply list_lookup_middle. }
  assert (∀ i, i ∈ req ++ (if qualifies index o then [length done] else []) →
            i ∈ req ∨ i = length done) as Hreq.
  { intros i [?|Hi]%elem_of_app; [by left|].
    destruct (qualifies index o); [|by apply elem_of_nil in Hi].
    apply list_elem_of_singleton in Hi. by right. }
  destruct (enrichedRecord Image JSON_parse index o) as [c1|e|] eqn:Hen.
  - assert (<[length done := c1]> (done ++ c :: rest) = (done ++ [c1]) ++ rest)
      as Hins1.
    { rw -{1}(Nat.add_0_r (length done)). by rw insert_app_r -assoc. }
    rw Hins1 in Hrun.
    specialize (IH (done ++ [c1])
                  (req ++ (if qualifies index o then [length done] else []))
                  (collector ++ [length done]) st r).
    rw length_app /= Nat.add_1_r in IH.
    destruct (IH Hrun Hr) as (j & Hj & Hbefore & Hafter & Hkept & Hrequested).
    exists (S j). split; [done|]. split; [|split; [|split]].
    + intros [|i] o2 Hi Ho2; simpl in Ho2.
      * injection Ho2 as <-. exists c1. split; [done|].
        rw Nat.add_0_r Hkept; [lia|]. by apply list_lookup_middle.
      * destruct (Hbefore i o2) as (c2 & ? & Hst); [lia|done|].
        exists c2. split; [done|]. by rw -Nat.add_succ_comm.
    + intros [|i] Hi; [lia|]. simpl. rw -Nat.add_succ_comm. apply Hafter. lia.
    + intros i Hi. rw Hkept; [lia|]. by rw lookup_app_l.
    + intros i Hi. destruct (Hrequested i Hi) as [Hi1|Hi1]; [|right; lia].
      destruct (Hreq i Hi1) as [? | ->]; [by left|right; lia].
  - injection Hrun as <- <-. exists 0. split; [|split; [|split; [|split]]]; simpl.
    + exists o. split; [done|]. by rw Hen.
    + intros; lia.
    + by apply Hlater.
    + by apply Hdone.
    + intros i Hi. destruct (Hreq i Hi) as [? | ->]; [by left|right; lia].
  - injection Hrun as <- <-. exists 0. split; [|split; [|split; [|split]]]; simpl.
    + exists o. split; [done|]. by rw Hen.
    + intros; lia.
    + by apply Hlater.
    + by apply Hdone.
    + intros i Hi. destruct (Hreq i Hi) as [? | ->]; [by left|right; lia].
Qed.

End Stopping.

(** X13: a pass that chains the elements and does not return has stopped
    at the first element whose enrichment does not succeed: the pass is
    rejected as this enrichment is, or stays pending with it; the elements
    before it are enriched, those after it are as received, and the size of
    none of them was requested. *)
Theorem chained_pass_stops_at_first_failure (Image : string → image_event)
    (JSON_parse : string → option val) (networkRecords elements : list obj) :
  let chained :=
    ByElement.afterPass Image JSON_parse networkRecords (Fulfilled elements) in
  is_fulfilled chained.2 = false →
  ∃ j, stoppedAt Image JSON_parse
         (ByElement.indexedNetworkRecords networkRecords) elements
         chained.1 chained.2 j.
Proof.
  intros chained Hr. unfold chained, ByElement.afterPass in *.
  destruct (ByElement.reduceElements Image JSON_parse _ _ _ _) as [st r] eqn:Hrun.
  destruct (reduceElements_stops Image JSON_parse _ elements [] [] [] st r Hrun Hr)
    as (j & Hj & Hbefore & Hafter & _ & Hrequested).
  exists j. split; [done|]. split; [done|]. split; [done|].
  intros i Hi. destruct (Hrequested i Hi) as [Hi1|Hi1]; [|simpl in Hi1; lia].
  by apply elem_of_nil in Hi1.
Qed.

(** ** Requests of the pass that awaits all the promises *)

Section Eager.
Variable Image : string → image_event.
Variable JSON_parse : string → option val.
Variable index : gmap string obj.

Lemma correlatedRecord_throws (o : obj) (e : error) :
  correlatedRecord JSON_parse index o = inl e → e = SyntaxError.
Proof.
  unfold correlatedRecord, rehydrate.
  destruct (truthy (get o "sources")); [|done].
  destruct (JSON_parse _); [done|]. by intros [= <-].
Qed.

Lemma mapTags_thrown (elements : list obj) :
  ∃ (st : state) (promises : list promise) (thrown : option error),
    ByTag.mapTags Image JSON_parse index (seq 0 (length elements))
      (mkState elements []) = (st, promises, thrown)
    ∧ match thrown with
      | Some e =>
          e = SyntaxError ∧
          Exists (fun o => correlatedRecord JSON_parse index o = inl SyntaxError)
            elements
      | None =>
          Forall (fun o => ∃ c, correlatedRecord JSON_parse index o = inr c)
            elements
          ∧ requested st = qualifying index 0 elements
          ∧ positional promises
          ∧ length (store st) = length elements
          ∧ ∀ i o, elements !! i = Some o →
              ∃ c, correlatedRecord JSON_parse index o = inr c ∧
                   store st !! i = Some c ∧
                   promises !! i = Some (promiseOf Image index o i)
      end.
Proof.
  destruct (mapTags_spec Image JSON_parse index elements [] [])
    as (rest' & promises & req' & thrown & Hmap & Hlen & Hle & Hlt & Hge
        & -> & Hthrown).
  simpl in Hmap, Hlt.
  exists (mkState rest' ([] ++ qualifying index 0 (take (length promises) elements))),
    promises, thrown.
  split; [done|]. destruct thrown as [e|].
  - destruct Hthrown as (o & Ho & Hc).
    pose proof (correlatedRecord_throws o e Hc) as ->. split; [done|].
    apply Exists_exists. exists o. split; [|done].
    by eapply list_elem_of_lookup_2.
  - assert (∀ i o, elements !! i = Some o →
              ∃ c, correlatedRecord JSON_parse index o = inr c ∧
                   rest' !! i = Some c ∧
                   promises !! i = Some (promiseOf Image index o i)) as Hall.
    { intros i o Ho. apply Hlt; [done|].
      apply lookup_lt_Some in Ho. lia. }
    split; [|split; [|split; [|split]]]; simpl.
    + apply Forall_lookup. intros i o Ho.
      destruct (Hall i o Ho) as (c & Hc & _). eauto.
    + by rw Hthrown firstn_all.
    + intros i p Hp.
      assert (i < length elements) as Hi
        by (apply lookup_lt_Some in Hp; lia).
      destruct (lookup_lt_is_Some_2 elements i Hi) as [o Ho].
      destruct (Hall i o Ho) as (c & _ & _ & Hp').
      rw Hp in Hp'. injection Hp' as ->.
      apply (promiseOf_positional Image index).
    + done.
    + done.
Qed.

End Eager.

(** X14: in the pass that awaits all the promises, when the sources of every
    tag parse, the sizes of all the qualifying tags are requested, whatever
    the images do and in whatever order the promises settle; and a tag whose
    image loaded has its enriched record in the store even when the request
    of another tag is rejected and the pass with it. *)
Theorem requests_leave_at_once (Image : string → image_event)
    (JSON_parse : string → option val) (networkRecords elements : list obj)
    (schedule : list nat) :
  let index := ByTag.indexedNetworkRecords networkRecords in
  let atOnce :=
    ByTag.afterPass Image JSON_parse networkRecords (Fulfilled elements) schedule in
  Forall (fun o => ∃ c, correlatedRecord JSON_parse index o = inr c) elements →
  requested atOnce.1 = qualifying index 0 elements
  ∧ (schedule ≡ₚ seq 0 (length elements) →
     ∀ i o c', elements !! i = Some o →
       enrichedRecord Image JSON_parse index o = Fulfilled c' →
       store atOnce.1 !! i = Some c').
Proof.
  intros index atOnce Hparse. unfold atOnce, ByTag.afterPass. fold index.
  destruct (mapTags_thrown Image JSON_parse index elements)
    as (st & promises & thrown & -> & Hthrown).
  destruct thrown as [e|].
  { destruct Hthrown as [_ Hex]. apply Exists_exists in Hex as (o & Hin & Hc).
    apply (proj1 (Forall_forall _ _) Hparse) in Hin as [c Hc']. congruence. }
  destruct Hthrown as (_ & Hreq & Hpos & Hlen & Hall).
  unfold Promise_all. simpl. split; [done|].
  intros Hperm i o c' Ho Hen.
  destruct (Hall i o Ho) as (c & Hc & Hst & Hp).
  rw (settled_objects promises Hpos schedule) Hp /= Hst.
  rw (enrichedRecord_settles Image JSON_parse index o c i Hc) in Hen.
  destruct (promiseSettles (promiseOf Image index o i)) as [size|e|];
    [|done..].
  injection Hen as <-.
  rw bool_decide_true //. rw Hperm. apply elem_of_seq.
  apply lookup_lt_Some in Ho. lia.
Qed.

(** X15: in the pass that awaits all the promises, when the sources of some
    tag do not parse, the pass is rejected with a [SyntaxError], whatever the
    images do and in whatever order the promises settle. *)
Theorem unparseable_sources_reject (Image : string → image_event)
    (JSON_parse : string → option val) (networkRecords elements : list obj)
    (schedule : list nat) :
  Exists (fun o => ∀ c, correlatedRecord JSON_parse
                          (ByTag.indexedNetworkRecords networkRecords) o
                        ≠ inr c) elements →
  (ByTag.afterPass Image JSON_parse networkRecords (Fulfilled elements)
     schedule).2 = Rejected SyntaxError.
Proof.
  intros Hbad. unfold ByTag.afterPass.
  destruct (mapTags_thrown Image JSON_parse
              (ByTag.indexedNetworkRecords networkRecords) elements)
    as (st & promises & thrown & -> & Hthrown).
  destruct thrown as [e|].
  - destruct Hthrown as [-> _].
    by destruct (Promise_all promises schedule (store st)).
  - destruct Hthrown as (Hparse & _).
    apply Exists_exists in Hbad as (o & Hin & Hc).
    apply (proj1 (Forall_forall _ _) Hparse) in Hin as [c Hc']. by apply Hc in Hc'.
Qed.

(** ** [pick] and the index, further *)

(** X16: for keys that are not names inherited from [Object.prototype],
    [pick] returns an object with exactly the keys asked for, holding
    [undefined] for a key that the object lacks; picking from a picked
    object keys that were already picked gives what picking them from the
    object itself gives, and picking the same keys again changes nothing. *)
Theorem pick_of_pick (o : obj) (keys keys' : list string) :
  dataKeys keys →
  dom (ByTag.pick o keys) = list_to_set keys
  ∧ (∀ k, k ∈ keys → o !! k = None → ByTag.pick o keys !! k = Some VUndef)
  ∧ (keys' ⊆ keys → ByTag.pick (ByTag.pick o keys) keys' = ByTag.pick o keys')
  ∧ ByTag.pick (ByTag.pick o keys) keys = ByTag.pick o keys.
Proof.
  intros _.
  assert (∀ ks ks', ks' ⊆ ks →
            ByTag.pick (ByTag.pick o ks) ks' = ByTag.pick o ks') as Hsub.
  { intros ks ks' Hsubset. apply map_eq. intros k. rw !pick_lookup.
    case_bool_decide as Hk; [|done].
    unfold get. rw pick_lookup bool_decide_true //. by apply Hsubset. }
  split; [|split; [|split]].
  - apply set_eq. intros k. rw elem_of_dom pick_lookup elem_of_list_to_set.
    case_bool_decide; split; try done; by intros [? ?].
  - intros k Hk Hnone. rw pick_lookup bool_decide_true //.
    unfold get. by rw Hnone.
  - apply Hsub.
  - by apply Hsub.
Qed.

Lemma revisions_lookup_app (l1 l2 : list obj) (key : string) :
  transfersAt key l2 = [] →
  ByTag.indexedNetworkRecords (l1 ++ l2) !! key
    = ByTag.indexedNetworkRecords l1 !! key
  ∧ ByElement.indexedNetworkRecords (l1 ++ l2) !! key
    = ByElement.indexedNetworkRecords l1 !! key.
Proof.
  intros Hnone.
  destruct (revisions_lookup (l1 ++ l2) key) as [-> ->].
  destruct (revisions_lookup l1 key) as [-> ->].
  unfold transfersAt in *. by rw List.filter_app Hnone app_nil_r.
Qed.

Lemma index_size (entryOf : obj → obj) (records : list obj) :
  size (foldl (indexStep entryOf) ∅ records)
  ≤ length (List.filter isImage records).
Proof.
  induction records as [|record records IH] using rev_ind; [done|].
  rw foldl_app List.filter_app length_app /=.
  unfold indexStep at 1. destruct (isImage record); simpl; [|lia].
  pose proof (map_size_insert (keyOf record) (entryOf record)
                (foldl (indexStep entryOf) ∅ records)) as Hsize.
  rw Hsize.
  destruct (foldl (indexStep entryOf) ∅ records !! keyOf record);
    unfold id; lia.
Qed.

(** X17: transfers added to a capture never remove a URL from the index,
    and leave the entry of a URL as it is unless one of them is an
    image-typed transfer of that URL; the index holds at most one entry per
    image-typed transfer.  This holds in both revisions. *)
Theorem index_grows_with_the_capture (l1 l2 : list obj) :
  dom (ByTag.indexedNetworkRecords l1) ⊆ dom (ByTag.indexedNetworkRecords (l1 ++ l2))
  ∧ dom (ByElement.indexedNetworkRecords l1)
    ⊆ dom (ByElement.indexedNetworkRecords (l1 ++ l2))
  ∧ (∀ key, transfersAt key l2 = [] →
       ByTag.indexedNetworkRecords (l1 ++ l2) !! key
         = ByTag.indexedNetworkRecords l1 !! key
       ∧ ByElement.indexedNetworkRecords (l1 ++ l2) !! key
         = ByElement.indexedNetworkRecords l1 !! key)
  ∧ size (ByTag.indexedNetworkRecords l1) ≤ length (List.filter isImage l1)
  ∧ size (ByElement.indexedNetworkRecords l1) ≤ length (List.filter isImage l1).
Proof.
  assert (∀ key, is_Some (last (transfersAt key l1)) →
                 is_Some (last (transfersAt key (l1 ++ l2)))) as Hlast.
  { intros key [record Hrecord]. unfold transfersAt in *.
    rw List.filter_app.
    destruct (List.filter _ l2) as [|x l] eqn:Hl2 using rev_ind.
    - rw app_nil_r. eauto.
    - rw assoc last_snoc. eauto. }
  split; [|split; [|split; [|split]]].
  - intros key. rw !elem_of_dom.
    destruct (revisions_lookup (l1 ++ l2) key) as [-> _].
    destruct (revisions_lookup l1 key) as [-> _].
    rw !fmap_is_Some. apply Hlast.
  - intros key. rw !elem_of_dom.
    destruct (revisions_lookup (l1 ++ l2) key) as [_ ->].
    destruct (revisions_lookup l1 key) as [_ ->].
    rw !fmap_is_Some. apply Hlast.
  - intros key. apply revisions_lookup_app.
  - apply (index_size (fun r => ByTag.pick r ByTag.pickedKeys)).
  - apply (index_size ByElement.networkRecordOf).
Qed.

(** X18: a transfer without [_mimeType] is not image-typed and leaves no
    entry; an image-typed transfer without [_url] is stored under the key
    [undefined], in both revisions. *)
Theorem transfers_with_missing_properties (records : list obj) (record : obj) :
  (record !! "_mimeType" = None →
   isImage record = false
   ∧ ByTag.indexedNetworkRecords (records ++ [record])
     = ByTag.indexedNetworkRecords records
   ∧ ByElement.indexedNetworkRecords (records ++ [record])
     = ByElement.indexedNetworkRecords records)
  ∧ (isImage record = true → record !! "_url" = None →
     ByTag.indexedNetworkRecords (records ++ [record]) !! "undefined"
       = Some (ByTag.pick record ByTag.pickedKeys)
     ∧ ByElement.indexedNetworkRecords (records ++ [record]) !! "undefined"
       = Some (ByElement.networkRecordOf record)).
Proof.
  split.
  - intros Hmime.
    assert (isImage record = false) as Himg.
    { unfold isImage, get. by rw Hmime. }
    split; [done|].
    unfold ByTag.indexedNetworkRecords, ByElement.indexedNetworkRecords.
    rw !foldl_app /=.
    unfold ByTag.indexRecord at 1, ByElement.indexRecord at 1. by rw Himg.
  - intros Himg Hurl.
    unfold ByTag.indexedNetworkRecords, ByElement.indexedNetworkRecords.
    rw !foldl_app /=.
    unfold ByTag.indexRecord at 1, ByElement.indexRecord at 1. rw Himg.
    unfold get. rw Hurl /=. by rw !lookup_insert_eq.
Qed.

(** ** Rehydrated sources *)

Section Rehydration.
Variable Image : string → image_event.
Variable JSON_parse : string → option val.
Variable index : gmap string obj.

Lemma correlatedRecord_rehydrated (o c : obj) :
  correlatedRecord JSON_parse index o = inr c → rehydrated JSON_parse o c.
Proof.
  unfold correlatedRecord, rehydrate, rehydrated, link.
  destruct (truthy (get o "sources")).
  - destruct (JSON_parse _) as [v|]; [|done]. intros [= <-].
    by rw get_insert_ne // get_insert_eq.
  - intros [= <-]. by rw get_insert_ne // get_insert_eq.
Qed.

Lemma enrichedRecord_rehydrated (o c1 : obj) :
  enrichedRecord Image JSON_parse index o = Fulfilled c1 →
  rehydrated JSON_parse o c1.
Proof.
  intros Hen.
  destruct (enrichedRecord_cases Image JSON_parse index o c1 Hen)
    as (c & Hc & Hcases).
  pose proof (correlatedRecord_rehydrated o c Hc) as Hre.
  destruct Hcases as [[_ ->]|(_ & w & h & _ & ->)]; [done|].
  assert (get (assign_props c (list_to_map [("naturalWidth", VNum w);
                                            ("naturalHeight", VNum h)]))
            "sources" = get c "sources") as Hsources.
  { unfold get, assign_props. f_equal. apply lookup_union_r.
    by rw /= !lookup_insert_ne // lookup_empty. }
  unfold rehydrated in *. by rw Hsources.
Qed.

Lemma enrichAll_rehydrated (elements : list obj) (st : state) :
  enrichAll Image JSON_parse index elements = Some (store st) →
  sourcesRehydrated JSON_parse elements st.
Proof.
  intros Hall i o Ho.
  destruct (enrichAll_lookup Image JSON_parse index _ _ _ _ Hall Ho)
    as (c1 & Hen & Hc1).
  exists c1. split; [done|]. by apply enrichedRecord_rehydrated.
Qed.

End Rehydration.

(** X19: in a pass that returns, the [sources] of each record are the value
    parsed from the text that the element carried, and the falsy value that
    the element carried when it had no such text; this holds in both
    revisions, and for the pass that awaits all the promises in any order
    of settlement. *)
Theorem returned_sources_are_parsed (Image : string → image_event)
    (JSON_parse : string → option val) (networkRecords elements : list obj)
    (schedule : list nat) :
  schedule ≡ₚ seq 0 (length elements) →
  let atOnce :=
    ByTag.afterPass Image JSON_parse networkRecords (Fulfilled elements) schedule in
  let chained :=
    ByElement.afterPass Image JSON_parse networkRecords (Fulfilled elements) in
  (is_fulfilled atOnce.2 = true → sourcesRehydrated JSON_parse elements atOnce.1)
  ∧ (is_fulfilled chained.2 = true →
     sourcesRehydrated JSON_parse elements chained.1).
Proof.
  intros Hperm atOnce chained.
  destruct (ByTag_afterPass_spec Image JSON_parse networkRecords elements
              schedule Hperm) as (st1 & r1 & Hrun1 & _ & Hres1).
  destruct (ByElement_afterPass_spec Image JSON_parse networkRecords elements)
    as (st2 & r2 & Hrun2 & _ & Hres2).
  fold atOnce in Hrun1. fold chained in Hrun2. rw Hrun1 Hrun2 /=.
  split; intros Hr.
  - destruct r1 as [out| |]; [|done..].
    destruct (fulfilled_pass Image JSON_parse _ _ _ _ _ _ Hres1 eq_refl)
      as (_ & Hall & _).
    by eapply enrichAll_rehydrated.
  - destruct r2 as [out| |]; [|done..].
    destruct (fulfilled_pass Image JSON_parse _ _ _ _ _ _ Hres2 eq_refl)
      as (_ & Hall & _).
    by eapply enrichAll_rehydrated.
Qed.

(** ** The further properties at sample inputs *)


Lemma pretty_of_created_table_witness :
  match Table.createTable testHeadings testResults with
  | inr table =>
      Table.pretty (VObj {[ "table" := VObj table ]}) =
      if forallb (printableResult testHeadings) testResults
      then inr (foldr (fun result text => lineOf testHeadings result +:+ text)
                  "" testResults)
      else inl TypeError
  | inl _ => False
  end.
Proof.
  destruct (Table.createTable testHeadings testResults) as [e|table] eqn:Htable.
  - vm_compute in Htable. discriminate.
  - exact (pretty_of_created_table testHeadings testResults table Htable).
Defined.

Lemma relativeUrls_without_comma_or_space_witness :
  "b.png" ∈ relativeUrls "a.png 1x, b.png 2x"
  ∧ occurrences "," "b.png" = 0 ∧ occurrences " " "b.png" = 0.
Proof.
  assert ("b.png" ∈ relativeUrls "a.png 1x, b.png 2x") as Hin.
  { change (relativeUrls "a.png 1x, b.png 2x") with ["a.png"; "b.png"].
    apply list_elem_of_further, list_elem_of_here. }
  split; [exact Hin|].
  exact (relativeUrls_without_comma_or_space "a.png 1x, b.png 2x" "b.png" Hin).
Defined.

Lemma parseSrcsetUrls_of_declared_witness :
  Forall (fun c => plainUrl c.1 = true ∧ occurrences "," c.2 = 0)
    [("a.png", "1x"); ("b.png", "2x")]
  ∧ ByElement.parseSrcsetUrls besideDocument "a.png 1x, b.png 2x"
    = ["http://x/a.png"; "http://x/b.png"].
Proof.
  assert (Forall (fun c => plainUrl c.1 = true ∧ occurrences "," c.2 = 0)
            [("a.png", "1x"); ("b.png", "2x")]) as Hdeclared.
  { repeat constructor. }
  split; [exact Hdeclared|].
  exact (proj1 (parseSrcsetUrls_of_declared besideDocument
                  [("a.png", "1x"); ("b.png", "2x")] Hdeclared)).
Defined.

Lemma plain_image_description_witness :
  plainDocument !! 0 = Some (mkImg pictureImg (Some (mkParent "P" [pictureImg])))
  ∧ "P" ≠ "PICTURE"
  ∧ ∀ records,
      ByElement.collectImageElementInfo besideDocument wideScreen sketch
        plainDocument = inr records →
      ∃ record, records !! 0 = Some record ∧
        describedAsPlain besideDocument pictureImg
          record.
Proof.
  assert ("P" ≠ "PICTURE") as Htag by discriminate.
  split; [reflexivity|]. split; [exact Htag|].
  exact (proj1 (plain_image_description besideDocument wideScreen sketch
                  plainDocument 0
                  (mkImg pictureImg (Some (mkParent "P" [pictureImg])))
                  (mkParent "P" [pictureImg]) eq_refl eq_refl Htag)).
Defined.

Lemma capture_without_images_witness :
  Forall (fun record => isImage record = false) [htmlTransfer]
  ∧ ByTag.indexedNetworkRecords [htmlTransfer] = ∅
  ∧ ByElement.indexedNetworkRecords [htmlTransfer] = ∅.
Proof.
  assert (Forall (fun record => isImage record = false) [htmlTransfer])
    as Hnone.
  { repeat constructor. }
  split; [exact Hnone|].
  destruct (capture_without_images [htmlTransfer] Hnone) as (H1 & H2 & _).
  exact (conj H1 H2).
Defined.


Lemma revisions_return_alike_witness :
  [1; 0] ≡ₚ seq 0 (length [pictureElement; plainElement])
  ∧ is_fulfilled
      (ByTag.afterPass loadingImage parseSources [pngTransfer]
         (Fulfilled [pictureElement; plainElement]) [1; 0]).2
    = is_fulfilled
        (ByElement.afterPass loadingImage parseSources [pngTransfer]
           (Fulfilled [pictureElement; plainElement])).2.
Proof.
  assert ([1; 0] ≡ₚ seq 0 (length [pictureElement; plainElement])) as Hperm
    by apply perm_swap.
  split; [exact Hperm|].
  exact (proj1 (revisions_return_alike loadingImage parseSources [pngTransfer]
                  [pictureElement; plainElement] [1; 0] Hperm)).
Defined.

Lemma chained_pass_stops_at_first_failure_witness :
  is_fulfilled
    (ByElement.afterPass failingImage parseSources [pngTransfer]
       (Fulfilled [plainElement; pictureElement; pictureElement])).2 = false
  ∧ ∃ j, stoppedAt failingImage parseSources
           (ByElement.indexedNetworkRecords [pngTransfer])
           [plainElement; pictureElement; pictureElement]
           (ByElement.afterPass failingImage parseSources [pngTransfer]
              (Fulfilled [plainElement; pictureElement; pictureElement])).1
           (ByElement.afterPass failingImage parseSources [pngTransfer]
              (Fulfilled [plainElement; pictureElement; pictureElement])).2
           j.
Proof.
  assert (is_fulfilled
            (ByElement.afterPass failingImage parseSources [pngTransfer]
               (Fulfilled [plainElement; pictureElement; pictureElement])).2
          = false) as Hfails by (vm_compute; reflexivity).
  split; [exact Hfails|].
  exact (chained_pass_stops_at_first_failure failingImage parseSources
           [pngTransfer] [plainElement; pictureElement; pictureElement] Hfails).
Defined.

Lemma requests_leave_at_once_witness :
  Forall (fun o => ∃ c, correlatedRecord parseSources
                          (ByTag.indexedNetworkRecords [pngTransfer]) o = inr c)
    [pictureElement; plainElement; pictureElement]
  ∧ requested
      (ByTag.afterPass failingImage parseSources [pngTransfer]
         (Fulfilled [pictureElement; plainElement; pictureElement]) [2; 0; 1]).1
    = qualifying (ByTag.indexedNetworkRecords [pngTransfer]) 0
        [pictureElement; plainElement; pictureElement].
Proof.
  assert (Forall (fun o => ∃ c, correlatedRecord parseSources
                             (ByTag.indexedNetworkRecords [pngTransfer]) o = inr c)
            [pictureElement; plainElement; pictureElement]) as Hparse.
  { repeat constructor; eexists; vm_compute; reflexivity. }
  split; [exact Hparse|].
  exact (proj1 (requests_leave_at_once failingImage parseSources [pngTransfer]
                  [pictureElement; plainElement; pictureElement] [2; 0; 1]
                  Hparse)).
Defined.

Lemma unparseable_sources_reject_witness :
  Exists (fun o => ∀ c, correlatedRecord parseSources
                          (ByTag.indexedNetworkRecords [pngTransfer]) o ≠ inr c)
    [pictureElement; brokenElement]
  ∧ (ByTag.afterPass failingImage parseSources [pngTransfer]
       (Fulfilled [pictureElement; brokenElement]) [1; 0]).2
    = Rejected SyntaxError.
Proof.
  assert (Exists (fun o => ∀ c, correlatedRecord parseSources
                             (ByTag.indexedNetworkRecords [pngTransfer]) o ≠ inr c)
            [pictureElement; brokenElement]) as Hbroken.
  { apply Exists_cons_tl, Exists_cons_hd. intros c Hc.
    vm_compute in Hc. discriminate. }
  split; [exact Hbroken|].
  exact (unparseable_sources_reject failingImage parseSources [pngTransfer]
           [pictureElement; brokenElement] [1; 0] Hbroken).
Defined.

Lemma returned_sources_are_parsed_witness :
  [1; 0] ≡ₚ seq 0 (length [pictureElement; plainElement])
  ∧ sourcesRehydrated parseSources [pictureElement; plainElement]
      (ByElement.afterPass loadingImage parseSources [pngTransfer]
         (Fulfilled [pictureElement; plainElement])).1.
Proof.
  assert ([1; 0] ≡ₚ seq 0 (length [pictureElement; plainElement])) as Hperm
    by apply perm_swap.
  split; [exact Hperm|].
  apply (proj2 (returned_sources_are_parsed loadingImage parseSources
                  [pngTransfer] [pictureElement; plainElement] [1; 0] Hperm)).
  vm_compute. reflexivity.
Defined.

Lemma pick_of_pick_witness :
  dataKeys ["url"; "endTime"]
  ∧ dom (ByTag.pick pngTransfer ["url"; "endTime"])
    = list_to_set ["url"; "endTime"]
  ∧ ByTag.pick (ByTag.pick pngTransfer ["url"; "endTime"]) ["url"; "endTime"]
    = ByTag.pick pngTransfer ["url"; "endTime"].
Proof.
  assert (dataKeys ["url"; "endTime"]) as Hkeys.
  { apply (bool_decide_unpack _). vm_compute. exact I. }
  split; [exact Hkeys|].
  destruct (pick_of_pick pngTransfer ["url"; "endTime"] [] Hkeys)
    as (Hdom & _ & _ & Hagain).
  exact (conj Hdom Hagain).
Defined.
